(** * ERC-7930 Interoperable Addresses: the encoder of
      stevieraykatz/interoperable-addresses, embedded and verified.

    The development follows the source files:
    - [src/utils.ts]     byte utilities ([numberToBytes], [hexToBytes], ...),
    - [src/constants.ts] [VERSION_1] and the chain types,
    - [src/types.ts]     the three interfaces,
    - [src/encoder.ts]   builder, encoder, checksum and naming.

    Conventions.  A [Uint8Array] is a [list byte]; a JavaScript [number] that
    holds an integer is a [Z], and the 32-bit wrap-around of the bit operators
    is written out ([toInt32]); a [string] is a [String.string]; a function
    that can [throw] returns a [result]. *)

From Stdlib Require Import ZArith List Strings.String Strings.Ascii Strings.Byte Bool Lia.
From stdpp Require Import base list.
Import ListNotations.

Local Open Scope Z_scope.

(** ** Exceptions *)

(** [throw new Error(message)]. *)
Inductive exn : Type :=
| Error (message : string).

Inductive result (A : Type) : Type :=
| Ok (value : A)
| Throw (e : exn).

Arguments Ok {A} value.
Arguments Throw {A} e.

(** A statement that throws ends the function: [x ← m; k] runs [k] only when
    [m] returned. *)
#[global] Instance result_ret : MRet result := fun A a => Ok a.
#[global] Instance result_bind : MBind result := fun A B k r =>
  match r with
  | Ok a => k a
  | Throw e => Throw e
  end.

Definition succeeds {A : Type} (r : result A) : Prop := exists a, r = Ok a.
Definition fails {A : Type} (r : result A) : Prop := exists e, r = Throw e.

(** ** JavaScript numbers and typed arrays *)

(** [ToInt32]: the operand conversion of the bit operators. *)
Definition toInt32 (z : Z) : Z := (z + 2 ^ 31) mod 2 ^ 32 - 2 ^ 31.

(** [a & b] *)
Definition js_and (a b : Z) : Z := Z.land (toInt32 a) (toInt32 b).

(** [a >> n], the sign-propagating shift. *)
Definition js_shr (a n : Z) : Z := Z.shiftr (toInt32 a) (n mod 32).

(** A store into a [Uint8Array] keeps the value modulo 256. *)
Definition u8 (z : Z) : byte :=
  match Byte.of_N (Z.to_N (z mod 256)) with
  | Some b => b
  | None => x00
  end.

(** The number read back from a [Uint8Array] cell. *)
Definition byte_val (b : byte) : Z := Z.of_N (Byte.to_N b).

(** The number a byte sequence denotes, most significant byte first. *)
Definition be_value (bytes : list byte) : Z :=
  fold_left (fun acc b => acc * 256 + byte_val b) bytes 0.

(** ** src/utils.ts *)

(** [concatBytes] of @noble/hashes/utils: the arrays, copied one after the
    other into a fresh array.  Its only check, that every argument is a
    [Uint8Array], holds by typing. *)
Definition nobleConcatBytes (arrays : list (list byte)) : list byte :=
  concat arrays.

Definition concatBytes (arrays : list (list byte)) : list byte :=
  nobleConcatBytes arrays.

(** The loop of [numberToBytes]: the counter is [i + 1], the cell written is
    [bytes[i]]. *)
Fixpoint numberToBytes_loop (k : nat) (num : Z) (bytes : list byte) : list byte :=
  match k with
  | O => bytes
  | S i => numberToBytes_loop i (js_shr num 8) (<[i := u8 (js_and num 255)]> bytes)
  end.

Definition numberToBytes (num : Z) (length : nat) : list byte :=
  numberToBytes_loop length num (replicate length x00).

(** *** Hexadecimal text (@noble/hashes/utils) *)

(** One hexadecimal digit of [Number.prototype.toString(16)]: lower case. *)
Definition hexDigit (n : N) : ascii :=
  if (n <? 10)%N then ascii_of_N (48 + n) else ascii_of_N (87 + n).

(** [hexes[b]]: [b.toString(16).padStart(2, '0')]. *)
Definition hexes (b : byte) : string :=
  let n := Byte.to_N b in
  String (hexDigit (n / 16)) (String (hexDigit (n mod 16)) EmptyString).

(** [bytesToHex] of the library: [hex += hexes[bytes[i]]] for every cell. *)
Fixpoint nobleToHex (bytes : list byte) : string :=
  match bytes with
  | [] => EmptyString
  | b :: rest => hexes b ++ nobleToHex rest
  end.

(** [asciiToBase16]: the value of a character code as a hexadecimal digit,
    [None] for [undefined]. *)
Definition asciiToBase16 (ch : N) : option N :=
  if ((48 <=? ch) && (ch <=? 57))%N then Some (ch - 48)%N
  else if ((65 <=? ch) && (ch <=? 70))%N then Some (ch - (65 - 10))%N
  else if ((97 <=? ch) && (ch <=? 102))%N then Some (ch - (97 - 10))%N
  else None.

(** The loop of the library's [hexToBytes], two characters for each cell; it
    stops at the first pair that holds a character that is no digit. *)
Fixpoint nobleFromHex_loop (hex : string) : result (list byte) :=
  match hex with
  | String c1 (String c2 rest) =>
      match asciiToBase16 (N_of_ascii c1), asciiToBase16 (N_of_ascii c2) with
      | Some n1, Some n2 =>
          bytes ← nobleFromHex_loop rest;
          Ok (u8 (Z.of_N (n1 * 16 + n2)) :: bytes)
      | _, _ => Throw (Error "hex string expected, got non-hex character")
      end
  | _ => Ok []
  end.

(** [hexToBytes] of the library.  The text of its two messages ends with the
    offending length or character; only their head is kept here. *)
Definition nobleFromHex (hex : string) : result (list byte) :=
  if Nat.odd (String.length hex)
  then Throw (Error "hex string expected, got unpadded hex of length")
  else nobleFromHex_loop hex.

(** [s.toUpperCase()] on the characters a hexadecimal rendering can hold:
    the letters [a]-[z] move to [A]-[Z], every other character stays. *)
Definition upperChar (c : ascii) : ascii :=
  let n := N_of_ascii c in
  if ((97 <=? n) && (n <=? 122))%N then ascii_of_N (n - 32) else c.

Fixpoint toUpperCase (s : string) : string :=
  match s with
  | EmptyString => EmptyString
  | String c rest => String (upperChar c) (toUpperCase rest)
  end.

(** [s.slice(n)] *)
Fixpoint slice (n : nat) (s : string) : string :=
  match n, s with
  | O, _ => s
  | S _, EmptyString => EmptyString
  | S n', String _ rest => slice n' rest
  end.

Definition hexToBytes (hex : string) : result (list byte) :=
  let cleanHex :=
    if String.prefix "0x" hex || String.prefix "0X" hex then slice 2 hex else hex in
  nobleFromHex cleanHex.

(** [bytesToHex(bytes, prefix = true)]: [None] is the omitted argument. *)
Definition bytesToHex (bytes : list byte) (prefix : option bool) : string :=
  let prefix := default true prefix in
  let hex := toUpperCase (nobleToHex bytes) in
  if prefix then "0x" ++ hex else hex.

(** The [length] low-order bytes of [num], most significant byte first. *)
Definition bigEndian (length : nat) (num : Z) : list byte :=
  map (fun i : nat => u8 (num / 256 ^ Z.of_nat i)) (rev (seq 0 length)).

(** Modelled from the spec: the minimum number of bytes that represents [num],
    a byte for every eight bits of its binary size; none for zero. *)
Definition minByteLength (num : N) : nat := N.to_nat ((N.size num + 7) / 8).

(** Modelled from the spec: [numberToMinBytes] is imported from [./utils] by
    [src/encoder.ts], but the [utils.ts] at hand does not define it.  The
    spec: a non-negative integer in the minimum number of big-endian bytes
    that represents it without leading zero bytes, and the empty sequence for
    zero. *)
Definition numberToMinBytes (num : N) : list byte :=
  bigEndian (minByteLength num) (Z.of_N num).

(** ** @noble/hashes/sha3

    The library's [keccak_256] is Keccak with rate 1088, capacity 512, the
    padding byte 0x01 and a digest of 32 bytes.  The checksum and the names
    below take the hash as a parameter; this model of it serves to run them on
    the inputs of the test suite.  A state is 25 lanes of 64 bits, the lane
    (x, y) at index [x + 5 * y]. *)
Module Sha3.

Definition mask64 : Z := 2 ^ 64 - 1.

Definition rotl64 (lane n : Z) : Z :=
  Z.land (Z.lor (Z.shiftl lane n) (Z.shiftr lane (64 - n))) mask64.

Definition lane (state : list Z) (x y : nat) : Z :=
  nth (x mod 5 + 5 * (y mod 5))%nat state 0.

Definition rotationOffsets : list Z :=
  [  0;  1; 62; 28; 27;
    36; 44;  6; 55; 20;
     3; 10; 43; 25; 39;
    41; 45; 15; 21;  8;
    18;  2; 61; 56; 14 ].

Definition roundConstants : list Z :=
  [ 0x0000000000000001; 0x0000000000008082; 0x800000000000808A;
    0x8000000080008000; 0x000000000000808B; 0x0000000080000001;
    0x8000000080008081; 0x8000000000008009; 0x000000000000008A;
    0x0000000000000088; 0x0000000080008009; 0x000000008000000A;
    0x000000008000808B; 0x800000000000008B; 0x8000000000008089;
    0x8000000000008003; 0x8000000000008002; 0x8000000000000080;
    0x000000000000800A; 0x800000008000000A; 0x8000000080008081;
    0x8000000000008080; 0x0000000080000001; 0x8000000080008008 ].

(** The 25 positions, in the order of the state. *)
Definition positions : list (nat * nat) :=
  flat_map (fun y => map (fun x => (x, y)) (seq 0 5)) (seq 0 5).

Definition theta (state : list Z) : list Z :=
  let parity x := fold_left Z.lxor (map (fun y => lane state x y) (seq 0 5)) 0 in
  let d x := Z.lxor (parity (x + 4)%nat) (rotl64 (parity (x + 1)%nat) 1) in
  map (fun '(x, y) => Z.lxor (lane state x y) (d x)) positions.

(** The lane (x, y) moves, rotated, to (y, 2x + 3y). *)
Definition rhoPi (state : list Z) : list Z :=
  map (fun '(x', y') =>
         let x := ((x' + 3 * y') mod 5)%nat in
         let y := x' in
         rotl64 (lane state x y) (nth (x + 5 * y) rotationOffsets 0))
      positions.

Definition chi (state : list Z) : list Z :=
  map (fun '(x, y) =>
         Z.lxor (lane state x y)
           (Z.land (Z.lxor (lane state (x + 1) y) mask64) (lane state (x + 2) y)))
      positions.

Definition iota (roundConstant : Z) (state : list Z) : list Z :=
  match state with
  | [] => []
  | lane0 :: lanes => Z.lxor lane0 roundConstant :: lanes
  end.

Definition keccakRound (state : list Z) (roundConstant : Z) : list Z :=
  iota roundConstant (chi (rhoPi (theta state))).

Definition keccakF (state : list Z) : list Z :=
  fold_left keccakRound roundConstants state.

(** Lanes are little-endian. *)
Definition laneOfBytes (bytes : list byte) : Z :=
  fold_right (fun b acc => byte_val b + 256 * acc) 0 bytes.

Definition bytesOfLane (lane : Z) : list byte :=
  map (fun i : nat => u8 (lane / 256 ^ Z.of_nat i)) (seq 0 8).

(** At most [count] consecutive pieces of [size] bytes. *)
Fixpoint chunks (count size : nat) (bytes : list byte) : list (list byte) :=
  match count with
  | O => []
  | S count' =>
      match bytes with
      | [] => []
      | _ => take size bytes :: chunks count' size (drop size bytes)
      end
  end.

Definition rate : nat := 136.

Definition pad (data : list byte) : list byte :=
  let missing := (rate - length data mod rate)%nat in
  if (missing =? 1)%nat then data ++ [x81]
  else data ++ [x01] ++ replicate (missing - 2) x00 ++ [x80].

Definition absorb (state : list Z) (block : list byte) : list Z :=
  let lanes := map laneOfBytes (chunks 17 8 block) ++ replicate 8 0 in
  keccakF (zip_with Z.lxor state lanes).

Definition keccak_256 (data : list byte) : list byte :=
  let blocks := chunks (S (length data)) rate (pad data) in
  let state := fold_left absorb blocks (replicate 25 0) in
  take 32 (flat_map bytesOfLane state).

End Sha3.

(** ** src/constants.ts *)

Definition VERSION_1 : Z := 1.

Module ChainType.
Definition EIP155 : Z := 0.
Definition SOLANA : Z := 2.
End ChainType.

(** ** src/types.ts *)

Module InteroperableAddress.
Record t : Type := mk {
  version : Z;
  chainType : Z;
  chainReference : list byte;
  address : list byte
}.
End InteroperableAddress.

Module InteroperableName.
Record t : Type := mk {
  address : string;
  chain : string;
  checksum : string
}.
End InteroperableName.

(** [number | Uint8Array], told apart by [typeof x === 'number']. *)
Inductive chainReferenceInput : Type :=
| RefNumber (n : N)
| RefBytes (bytes : list byte).

(** [string | Uint8Array], told apart by [typeof x === 'string']. *)
Inductive addressInput : Type :=
| AddrString (hex : string)
| AddrBytes (bytes : list byte).

(** An optional field is [None] when it is [undefined]. *)
Module CreateInteroperableAddressParams.
Record t : Type := mk {
  chainType : Z;
  chainReference : option chainReferenceInput;
  address : option addressInput
}.
End CreateInteroperableAddressParams.

(** ** src/encoder.ts *)

Definition encodeInteroperableAddress (interopAddress : InteroperableAddress.t)
  : list byte :=
  let version := numberToBytes (InteroperableAddress.version interopAddress) 2 in
  let chainType := numberToBytes (InteroperableAddress.chainType interopAddress) 2 in
  let chainReferenceLength :=
    numberToBytes (Z.of_nat (length (InteroperableAddress.chainReference interopAddress))) 1 in
  let addressLength :=
    numberToBytes (Z.of_nat (length (InteroperableAddress.address interopAddress))) 1 in
  concatBytes
    [ version;
      chainType;
      chainReferenceLength;
      InteroperableAddress.chainReference interopAddress;
      addressLength;
      InteroperableAddress.address interopAddress ].

Definition createInteroperableAddress (params : CreateInteroperableAddressParams.t)
  : result InteroperableAddress.t :=
  let chainType := CreateInteroperableAddressParams.chainType params in
  let chainReference :=
    match CreateInteroperableAddressParams.chainReference params with
    | None => replicate 0 x00
    | Some (RefNumber n) => numberToMinBytes n
    | Some (RefBytes bytes) => bytes
    end in
  address ←
    match CreateInteroperableAddressParams.address params with
    | None => Ok (replicate 0 x00)
    | Some (AddrString hex) => hexToBytes hex
    | Some (AddrBytes bytes) => Ok bytes
    end;
  if (length chainReference =? 0)%nat && (length address =? 0)%nat
  then Throw (Error "At least one of chainReference or address must be provided")
  else if (255 <? length chainReference)%nat
  then Throw (Error "Chain reference length cannot exceed 255 bytes")
  else if (255 <? length address)%nat
  then Throw (Error "Address length cannot exceed 255 bytes")
  else if (chainType <? 0) || (65535 <? chainType)
  then Throw (Error "Chain type must be a 2-byte value (0-65535)")
  else Ok {| InteroperableAddress.version := VERSION_1;
             InteroperableAddress.chainType := chainType;
             InteroperableAddress.chainReference := chainReference;
             InteroperableAddress.address := address |}.


(** The hash is the library's [keccak_256], a function from bytes to a digest;
    the checksum and the names are defined over it. *)
Section Keccak.

Variable keccak_256 : list byte -> list byte.

Definition keccak256 (data : list byte) : list byte := keccak_256 data.

Definition calculateChecksum (interopAddress : InteroperableAddress.t) : string :=
  let chainType := numberToBytes (InteroperableAddress.chainType interopAddress) 2 in
  let chainReferenceLength :=
    numberToBytes (Z.of_nat (length (InteroperableAddress.chainReference interopAddress))) 1 in
  let addressLength :=
    numberToBytes (Z.of_nat (length (InteroperableAddress.address interopAddress))) 1 in
  let checksumInput :=
    concatBytes
      [ chainType;
        chainReferenceLength;
        InteroperableAddress.chainReference interopAddress;
        addressLength;
        InteroperableAddress.address interopAddress ] in
  let hash := keccak256 checksumInput in
  let checksum := take 4 hash in
  bytesToHex checksum (Some false).

Definition toInteroperableName (interopAddress : InteroperableAddress.t)
    (chainString addressString : string) : InteroperableName.t :=
  let checksum := calculateChecksum interopAddress in
  {| InteroperableName.address := addressString;
     InteroperableName.chain := chainString;
     InteroperableName.checksum := checksum |}.

End Keccak.

Definition formatInteroperableName (name : InteroperableName.t) : string :=
  InteroperableName.address name ++ "@" ++ InteroperableName.chain name
    ++ "#" ++ InteroperableName.checksum name.

(** * Specification vocabulary

    The words of the specification, written independently of the code above
    and compared with it in the theorems below. *)

(** A number as two bytes, big-endian. *)
Definition u16be (v : Z) : list byte := [u8 (v / 256); u8 v].

(** The length constraints of a valid address. *)
Definition valid_lengths (a : InteroperableAddress.t) : Prop :=
  (length (InteroperableAddress.chainReference a) <= 255)%nat
  /\ (length (InteroperableAddress.address a) <= 255)%nat.

(** The layout of the encoding after its version prefix; a field length is one
    byte. *)
Definition layout_body (chainType : Z) (chainReference address : list byte) : list byte :=
  u16be chainType
    ++ [u8 (Z.of_nat (length chainReference))] ++ chainReference
    ++ [u8 (Z.of_nat (length address))] ++ address.

Definition layout (version chainType : Z) (chainReference address : list byte) : list byte :=
  u16be version ++ layout_body chainType chainReference address.

(** The sixteen upper-case hexadecimal digits, and a byte sequence rendered
    with them, two digits for each byte, most significant digit first. *)
Definition upperHexDigits : string := "0123456789ABCDEF".

Definition upperHexDigit (n : nat) : ascii :=
  default "0"%char (String.get n upperHexDigits).

Fixpoint upperHex (bytes : list byte) : string :=
  match bytes with
  | [] => EmptyString
  | b :: rest =>
      String (upperHexDigit (Byte.to_nat b / 16))
        (String (upperHexDigit (Byte.to_nat b mod 16)) (upperHex rest))
  end.

(** The normalization of the two optional fields of the builder's input. *)
Definition normalizeChainReference (input : option chainReferenceInput) : list byte :=
  match input with
  | None => []
  | Some (RefNumber n) => numberToMinBytes n
  | Some (RefBytes bytes) => bytes
  end.

Definition normalizeAddress (input : option addressInput) : result (list byte) :=
  match input with
  | None => Ok []
  | Some (AddrString hex) => hexToBytes hex
  | Some (AddrBytes bytes) => Ok bytes
  end.

(** The four validations of the builder, and what each one rejects. *)
Inductive check : Type :=
| BothEmpty
| ChainReferenceTooLong
| AddressTooLong
| ChainTypeOutOfRange.

Definition violates (c : check) (chainType : Z) (chainReference address : list byte)
  : Prop :=
  match c with
  | BothEmpty => chainReference = [] /\ address = []
  | ChainReferenceTooLong => (length chainReference > 255)%nat
  | AddressTooLong => (length address > 255)%nat
  | ChainTypeOutOfRange => chainType < 0 \/ chainType > 65535
  end.

(** The message of each validation in [src/encoder.ts]. *)
Definition message (c : check) : string :=
  match c with
  | BothEmpty => "At least one of chainReference or address must be provided"
  | ChainReferenceTooLong => "Chain reference length cannot exceed 255 bytes"
  | AddressTooLong => "Address length cannot exceed 255 bytes"
  | ChainTypeOutOfRange => "Chain type must be a 2-byte value (0-65535)"
  end.

(** The address the builder returns for normalized fields. *)
Definition built (chainType : Z) (chainReference address : list byte)
  : InteroperableAddress.t :=
  {| InteroperableAddress.version := 1;
     InteroperableAddress.chainType := chainType;
     InteroperableAddress.chainReference := chainReference;
     InteroperableAddress.address := address |}.

(** The inputs of the test suite. *)
Definition vitalik : string := "0xd8dA6BF26964aF9D7eEd9e03E53415D37aA96045".

Definition solanaGenesis : string :=
  "0x45296998a6f8e2a784db5d9f95e18fc23f70441a1039446801089879b08c7ef0".

Definition solanaAccount : string :=
  "0x05333498d5aea4ae009585c43f7b8c30df8e70187d4a713d134f977fc8dfe0b5".

(** What the four scenarios of [encoder.test.ts] compute: the binary form in
    hexadecimal and the formatted name. *)
Definition scenario (chainType : Z) (chainReference : option chainReferenceInput)
    (address : option addressInput) (chainString addressString : string)
  : result (string * string) :=
  a ← createInteroperableAddress
        (CreateInteroperableAddressParams.mk chainType chainReference address);
  Ok (bytesToHex (encodeInteroperableAddress a) None,
      formatInteroperableName
        (toInteroperableName Sha3.keccak_256 a chainString addressString)).

(** The string [hexToBytes] hands to the library: [hex] without one leading
    [0x] or [0X]. *)
Definition cleanHex (hex : string) : string :=
  if String.prefix "0x" hex || String.prefix "0X" hex then slice 2 hex else hex.

(** The characters that are hexadecimal digits, in either case. *)
Definition hexDigits : string := "0123456789abcdefABCDEF".

Definition isHexDigit (c : ascii) : bool :=
  existsb (Ascii.eqb c) (list_ascii_of_string hexDigits).

Fixpoint allHexDigits (s : string) : bool :=
  match s with
  | EmptyString => true
  | String c rest => isHexDigit c && allHexDigits rest
  end.

(** [c] is one of the characters of [s]. *)
Fixpoint occurs (c : ascii) (s : string) : bool :=
  match s with
  | EmptyString => false
  | String d rest => Ascii.eqb c d || occurs c rest
  end.


(** An address whose four fields fit their places in the binary form. *)
Definition fits_wire (a : InteroperableAddress.t) : Prop :=
  0 <= InteroperableAddress.version a < 65536
  /\ 0 <= InteroperableAddress.chainType a < 65536
  /\ valid_lengths a.

(** * Facts about bytes and the bit operators *)

Lemma byte_val_range (b : byte) : 0 <= byte_val b < 256.
Proof.
  unfold byte_val. pose proof (Byte.to_N_bounded b). lia.
Qed.

Lemma byte_val_u8 (z : Z) : byte_val (u8 z) = z mod 256.
Proof.
  unfold u8, byte_val.
  assert (Hr : 0 <= z mod 256 < 256) by (apply Z.mod_pos_bound; lia).
  destruct (Byte.of_N (Z.to_N (z mod 256))) as [b|] eqn:E.
  - apply Byte.to_of_N in E. rewrite E. lia.
  - apply Byte.of_N_None_iff in E. lia.
Qed.

Lemma byte_val_inj (a b : byte) : byte_val a = byte_val b -> a = b.
Proof.
  unfold byte_val. intros H.
  assert (E : Byte.to_N a = Byte.to_N b) by lia.
  pose proof (Byte.of_to_N a) as Ha. pose proof (Byte.of_to_N b) as Hb.
  rewrite E in Ha. congruence.
Qed.

Lemma u8_byte_val (b : byte) : u8 (byte_val b) = b.
Proof.
  apply byte_val_inj. rewrite byte_val_u8.
  apply Z.mod_small, byte_val_range.
Qed.

Lemma u8_mod (z : Z) : u8 (z mod 256) = u8 z.
Proof.
  apply byte_val_inj. rewrite !byte_val_u8. apply Z.mod_mod. lia.
Qed.

Lemma toInt32_range (z : Z) : - 2 ^ 31 <= toInt32 z < 2 ^ 31.
Proof.
  unfold toInt32.
  assert (0 <= (z + 2 ^ 31) mod 2 ^ 32 < 2 ^ 32) by (apply Z.mod_pos_bound; lia).
  lia.
Qed.

Lemma toInt32_small (z : Z) : - 2 ^ 31 <= z < 2 ^ 31 -> toInt32 z = z.
Proof.
  intros H. unfold toInt32. rewrite Z.mod_small; lia.
Qed.

Lemma toInt32_wrap (z : Z) : exists k, toInt32 z = z + k * 2 ^ 32.
Proof.
  exists (- ((z + 2 ^ 31) / 2 ^ 32)). unfold toInt32.
  pose proof (Z.div_mod (z + 2 ^ 31) (2 ^ 32) ltac:(lia)). lia.
Qed.

Lemma toInt32_mod256 (z : Z) : toInt32 z mod 256 = z mod 256.
Proof.
  destruct (toInt32_wrap z) as [k ->].
  replace (z + k * 2 ^ 32) with (z + (k * 2 ^ 24) * 256) by lia.
  apply Z.mod_add. lia.
Qed.

(** [num & 0xff] is the low byte of [num]. *)
Lemma js_and_255 (num : Z) : js_and num 255 = num mod 256.
Proof.
  unfold js_and. rewrite (toInt32_small 255) by lia.
  change 255 with (Z.ones 8). rewrite Z.land_ones by lia.
  change (2 ^ 8) with 256. apply toInt32_mod256.
Qed.

(** [num >> 8] drops the low byte of the 32-bit value of [num]. *)
Lemma js_shr_8 (num : Z) : js_shr num 8 = toInt32 num / 256.
Proof.
  unfold js_shr. change (8 mod 32) with 8.
  rewrite Z.shiftr_div_pow2 by lia. reflexivity.
Qed.

Lemma high_byte_toInt32 (num : Z) : (toInt32 num / 256) mod 256 = (num / 256) mod 256.
Proof.
  destruct (toInt32_wrap num) as [k ->].
  replace (num + k * 2 ^ 32) with (num + (k * 2 ^ 24) * 256) by lia.
  rewrite Z.div_add by lia.
  replace (num / 256 + k * 2 ^ 24) with (num / 256 + (k * 2 ^ 16) * 256) by lia.
  apply Z.mod_add. lia.
Qed.

(** [numberToBytes] at the two widths the encoder uses. *)
Lemma numberToBytes_1 (num : Z) : numberToBytes num 1 = [u8 num].
Proof.
  unfold numberToBytes. simpl. rewrite js_and_255, u8_mod. reflexivity.
Qed.

Lemma numberToBytes_2 (num : Z) : numberToBytes num 2 = [u8 (num / 256); u8 num].
Proof.
  unfold numberToBytes. simpl.
  rewrite !js_and_255, js_shr_8, !u8_mod.
  f_equal. apply byte_val_inj. rewrite !byte_val_u8. apply high_byte_toInt32.
Qed.

(** ** Big-endian values *)

Lemma be_value_app (l : list byte) (b : byte) :
  be_value (l ++ [b]) = be_value l * 256 + byte_val b.
Proof.
  unfold be_value. rewrite fold_left_app. reflexivity.
Qed.

Lemma be_value_u16be (v : Z) : be_value (u16be v) = v mod 65536.
Proof.
  unfold u16be, be_value. cbn [fold_left]. rewrite !byte_val_u8.
  change 65536 with (256 * 256). rewrite (Z.rem_mul_r v 256 256) by lia. lia.
Qed.

(** ** Minimal big-endian numbers *)

Lemma bigEndian_S (k : nat) (v : Z) :
  bigEndian (S k) v = u8 (v / 256 ^ Z.of_nat k) :: bigEndian k v.
Proof.
  unfold bigEndian. rewrite seq_S, rev_app_distr. reflexivity.
Qed.

Lemma length_bigEndian (k : nat) (v : Z) : length (bigEndian k v) = k.
Proof.
  unfold bigEndian. rewrite length_map, length_rev, length_seq. reflexivity.
Qed.

Lemma be_value_cons (b : byte) (l : list byte) :
  be_value (b :: l) = byte_val b * 256 ^ Z.of_nat (length l) + be_value l.
Proof.
  induction l as [|x l IH] using rev_ind.
  - unfold be_value. simpl. lia.
  - rewrite app_comm_cons, !be_value_app, IH, length_app.
    cbn [length]. rewrite Nat.add_1_r, Nat2Z.inj_succ, Z.pow_succ_r by lia.
    ring.
Qed.

Lemma be_value_range (l : list byte) :
  0 <= be_value l < 256 ^ Z.of_nat (length l).
Proof.
  induction l as [|x l IH] using rev_ind.
  - unfold be_value. simpl. lia.
  - rewrite be_value_app, length_app. cbn [length].
    rewrite Nat.add_1_r, Nat2Z.inj_succ, Z.pow_succ_r by lia.
    pose proof (byte_val_range x). lia.
Qed.

Lemma be_value_bigEndian (k : nat) (v : Z) :
  be_value (bigEndian k v) = v mod 256 ^ Z.of_nat k.
Proof.
  induction k as [|k IH].
  - unfold bigEndian, be_value. simpl. rewrite Z.mod_1_r. reflexivity.
  - rewrite bigEndian_S, be_value_cons, IH, length_bigEndian, byte_val_u8.
    rewrite Nat2Z.inj_succ, Z.pow_succ_r by lia.
    assert (Hp : 0 < 256 ^ Z.of_nat k) by (apply Z.pow_pos_nonneg; lia).
    rewrite (Z.mul_comm 256), (Z.rem_mul_r v (256 ^ Z.of_nat k) 256) by lia.
    ring.
Qed.

(** Two sequences of one length that denote one number are equal. *)
Lemma be_value_inj (l1 l2 : list byte) :
  length l1 = length l2 -> be_value l1 = be_value l2 -> l1 = l2.
Proof.
  revert l2. induction l1 as [|a l1 IH]; intros [|b l2] Hlen Hval;
    try discriminate; [reflexivity|].
  injection Hlen as Hlen. rewrite !be_value_cons, Hlen in Hval.
  pose proof (be_value_range l1) as R1. pose proof (be_value_range l2) as R2.
  rewrite Hlen in R1.
  pose proof (byte_val_range a) as Ra. pose proof (byte_val_range b) as Rb.
  set (p := 256 ^ Z.of_nat (length l2)) in *.
  assert (Hab : byte_val a = byte_val b) by nia.
  rewrite Hab in Hval.
  f_equal; [apply byte_val_inj, Hab | apply IH; [exact Hlen | lia]].
Qed.

(** A sequence that does not begin with a zero byte denotes a number of its
    full width. *)
Lemma be_value_no_leading_zero (l : list byte) :
  l <> [] -> head l <> Some x00 ->
  256 ^ (Z.of_nat (length l) - 1) <= be_value l.
Proof.
  destruct l as [|b l]; [congruence|]. intros _ Hhd.
  rewrite be_value_cons. cbn [length].
  replace (Z.of_nat (S (length l)) - 1) with (Z.of_nat (length l)) by lia.
  assert (Hb : 1 <= byte_val b).
  { pose proof (byte_val_range b).
    destruct (Z.eq_dec (byte_val b) 0) as [E|]; [|lia].
    exfalso. apply Hhd. cbn. f_equal. apply byte_val_inj. rewrite E. reflexivity. }
  pose proof (be_value_range l).
  assert (0 < 256 ^ Z.of_nat (length l)) by (apply Z.pow_pos_nonneg; lia).
  nia.
Qed.

Lemma pow256 (k : Z) : 0 <= k -> 256 ^ k = 2 ^ (8 * k).
Proof.
  intros H. rewrite Z.pow_mul_r by lia. reflexivity.
Qed.

Lemma minByteLength_Z (n : N) :
  Z.of_nat (minByteLength n) = (Z.of_N (N.size n) + 7) / 8.
Proof.
  unfold minByteLength. rewrite N_nat_Z, N2Z.inj_div, N2Z.inj_add. reflexivity.
Qed.

(** The number fits in [minByteLength] bytes ... *)
Lemma minByteLength_fits (n : N) : Z.of_N n < 256 ^ Z.of_nat (minByteLength n).
Proof.
  rewrite minByteLength_Z. set (sz := Z.of_N (N.size n)).
  assert (Hsz : 0 <= sz) by (subst sz; lia).
  pose proof (N.size_gt n) as Hgt. apply N2Z.inj_lt in Hgt.
  rewrite N2Z.inj_pow in Hgt. change (Z.of_N 2) with 2 in Hgt. fold sz in Hgt.
  rewrite pow256 by (apply Z.div_pos; lia).
  assert (sz <= 8 * ((sz + 7) / 8)).
  { pose proof (Z.div_mod (sz + 7) 8 ltac:(lia)).
    pose proof (Z.mod_pos_bound (sz + 7) 8 ltac:(lia)). lia. }
  assert (2 ^ sz <= 2 ^ (8 * ((sz + 7) / 8))) by (apply Z.pow_le_mono_r; lia).
  lia.
Qed.

(** ... and in no fewer. *)
Lemma minByteLength_least (n : N) :
  n <> 0%N -> 256 ^ (Z.of_nat (minByteLength n) - 1) <= Z.of_N n.
Proof.
  intros Hn. rewrite minByteLength_Z. set (sz := Z.of_N (N.size n)).
  assert (Hsz : 1 <= sz).
  { subst sz. rewrite N.size_log2 by exact Hn. lia. }
  pose proof (N.size_le n) as Hle. rewrite N.succ_double_spec in Hle.
  apply N2Z.inj_le in Hle.
  rewrite N2Z.inj_pow, N2Z.inj_add, N2Z.inj_mul in Hle.
  change (Z.of_N 2) with 2 in Hle. change (Z.of_N 1) with 1 in Hle. fold sz in Hle.
  replace sz with (Z.succ (sz - 1)) in Hle at 1 by lia.
  rewrite Z.pow_succ_r in Hle by lia.
  assert (H1 : 2 ^ (sz - 1) <= Z.of_N n) by lia.
  assert (H8 : 8 * ((sz + 7) / 8 - 1) <= sz - 1).
  { pose proof (Z.div_mod (sz + 7) 8 ltac:(lia)).
    pose proof (Z.mod_pos_bound (sz + 7) 8 ltac:(lia)). lia. }
  assert (H0 : 0 <= (sz + 7) / 8 - 1).
  { assert (1 <= (sz + 7) / 8) by (apply Z.div_le_lower_bound; lia). lia. }
  rewrite pow256 by exact H0.
  assert (2 ^ (8 * ((sz + 7) / 8 - 1)) <= 2 ^ (sz - 1))
    by (apply Z.pow_le_mono_r; lia).
  lia.
Qed.

Lemma minByteLength_0 (n : N) : minByteLength n = O <-> n = 0%N.
Proof.
  split.
  - intros H. destruct (N.eq_dec n 0%N) as [|Hn]; [assumption|].
    pose proof (minByteLength_least n Hn) as Hl. rewrite H in Hl.
    pose proof (minByteLength_fits n) as Hf. rewrite H in Hf.
    simpl in Hf. lia.
  - intros ->. reflexivity.
Qed.

Lemma numberToMinBytes_value (n : N) : be_value (numberToMinBytes n) = Z.of_N n.
Proof.
  unfold numberToMinBytes. rewrite be_value_bigEndian.
  apply Z.mod_small. pose proof (minByteLength_fits n). lia.
Qed.

Lemma numberToMinBytes_shortest (n : N) (bs : list byte) :
  be_value bs = Z.of_N n -> (length (numberToMinBytes n) <= length bs)%nat.
Proof.
  intros Hv. unfold numberToMinBytes. rewrite length_bigEndian.
  destruct (le_lt_dec (minByteLength n) (length bs)) as [|Hlt]; [assumption|].
  exfalso.
  assert (Hn : n <> 0%N).
  { intros E. apply minByteLength_0 in E. lia. }
  pose proof (minByteLength_least n Hn) as Hl.
  pose proof (be_value_range bs) as Hr.
  assert (256 ^ Z.of_nat (length bs) <= 256 ^ (Z.of_nat (minByteLength n) - 1))
    by (apply Z.pow_le_mono_r; lia).
  lia.
Qed.

Lemma numberToMinBytes_head (n : N) : head (numberToMinBytes n) <> Some x00.
Proof.
  unfold numberToMinBytes.
  destruct (minByteLength n) as [|k] eqn:E; [discriminate|].
  assert (Hn : n <> 0%N) by (intros H; apply minByteLength_0 in H; congruence).
  pose proof (minByteLength_least n Hn) as Hl.
  pose proof (minByteLength_fits n) as Hf.
  rewrite E in Hl, Hf.
  replace (Z.of_nat (S k) - 1) with (Z.of_nat k) in Hl by lia.
  rewrite Nat2Z.inj_succ, Z.pow_succ_r in Hf by lia.
  rewrite bigEndian_S. cbn [head]. intros H. injection H as H.
  apply (f_equal byte_val) in H. rewrite byte_val_u8 in H.
  change (byte_val x00) with 0 in H.
  assert (Hp : 0 < 256 ^ Z.of_nat k) by (apply Z.pow_pos_nonneg; lia).
  assert (1 <= Z.of_N n / 256 ^ Z.of_nat k) by (apply Z.div_le_lower_bound; lia).
  assert (Z.of_N n / 256 ^ Z.of_nat k < 256) by (apply Z.div_lt_upper_bound; lia).
  rewrite Z.mod_small in H by lia. lia.
Qed.

Lemma numberToMinBytes_unique (n : N) (bs : list byte) :
  be_value bs = Z.of_N n -> head bs <> Some x00 -> bs = numberToMinBytes n.
Proof.
  intros Hv Hhd. apply be_value_inj; [|rewrite numberToMinBytes_value; exact Hv].
  apply Nat.le_antisymm; [|apply numberToMinBytes_shortest, Hv].
  unfold numberToMinBytes. rewrite length_bigEndian.
  destruct bs as [|b bs]; [cbn; lia|].
  pose proof (be_value_no_leading_zero (b :: bs) ltac:(discriminate) Hhd) as Hl.
  pose proof (minByteLength_fits n) as Hf.
  destruct (le_lt_dec (length (b :: bs)) (minByteLength n)) as [|Hlt]; [assumption|].
  exfalso.
  assert (256 ^ Z.of_nat (minByteLength n) <= 256 ^ (Z.of_nat (length (b :: bs)) - 1))
    by (apply Z.pow_le_mono_r; lia).
  lia.
Qed.

(** C5.  [numberToMinBytes n] denotes [n] as a big-endian number, does not
    begin with a zero byte, and is the shortest such sequence (the only one
    without a leading zero byte); for zero it is the empty sequence.
    Examples: 1, 137, 42161 and 0. *)
Theorem numberToMinBytes_minimal (n : N) :
  be_value (numberToMinBytes n) = Z.of_N n
  /\ head (numberToMinBytes n) <> Some x00
  /\ (forall bs : list byte,
         be_value bs = Z.of_N n -> (length (numberToMinBytes n) <= length bs)%nat)
  /\ (forall bs : list byte,
         be_value bs = Z.of_N n -> head bs <> Some x00 -> bs = numberToMinBytes n)
  /\ numberToMinBytes 0 = []
  /\ numberToMinBytes 1 = [x01]
  /\ numberToMinBytes 137 = [x89]
  /\ numberToMinBytes 42161 = [xa4; xb1].
Proof.
  split; [apply numberToMinBytes_value|].
  split; [apply numberToMinBytes_head|].
  split; [apply numberToMinBytes_shortest|].
  split; [apply numberToMinBytes_unique|].
  repeat split; reflexivity.
Qed.

(** ** [numberToBytes] at every width

    The loop fills the array from its last cell with the bytes of the 32-bit
    value of [num]; what does not fit is dropped. *)

Lemma toInt32_idem (z : Z) : toInt32 (toInt32 z) = toInt32 z.
Proof.
  apply toInt32_small, toInt32_range.
Qed.

Lemma numberToBytes_loop_toInt32 (k : nat) (num : Z) (bytes : list byte) :
  numberToBytes_loop k (toInt32 num) bytes = numberToBytes_loop k num bytes.
Proof.
  destruct k as [|i]; [reflexivity|].
  cbn [numberToBytes_loop]. unfold js_and, js_shr. rewrite toInt32_idem. reflexivity.
Qed.

Lemma bigEndian_snoc (k : nat) (v : Z) :
  bigEndian (S k) v = bigEndian k (v / 256) ++ [u8 v].
Proof.
  unfold bigEndian. cbn [seq]. rewrite <- seq_shift. cbn [rev].
  rewrite map_app, <- map_rev, map_map. cbn [map].
  f_equal.
  - apply map_ext. intros i.
    rewrite Nat2Z.inj_succ, Z.pow_succ_r, Z.div_div by lia. reflexivity.
  - rewrite Z.div_1_r. reflexivity.
Qed.

Lemma numberToBytes_loop_filled (k : nat) :
  forall (v : Z) (pre suf : list byte),
    length pre = k -> toInt32 v = v ->
    numberToBytes_loop k v (pre ++ suf) = bigEndian k v ++ suf.
Proof.
  induction k as [|i IH]; intros v pre suf Hlen Hv.
  - destruct pre; [reflexivity | discriminate].
  - destruct pre as [|x pre'] using rev_ind; [discriminate|]. clear IHpre'.
    rewrite length_app in Hlen. cbn [length] in Hlen.
    assert (Hi : length pre' = i) by lia.
    cbn [numberToBytes_loop].
    rewrite <- app_assoc, insert_app_r_alt by lia.
    replace (i - length pre')%nat with O by lia. cbn [app].
    change (<[O := u8 (js_and v 255)]> (x :: suf)) with (u8 (js_and v 255) :: suf).
    rewrite js_and_255, u8_mod, js_shr_8, Hv.
    assert (Hr : - 2 ^ 31 <= v / 256 < 2 ^ 31).
    { pose proof (toInt32_range v) as R. rewrite Hv in R.
      split; [apply Z.div_le_lower_bound | apply Z.div_lt_upper_bound]; lia. }
    rewrite (IH (v / 256) pre' (u8 v :: suf) Hi (toInt32_small _ Hr)).
    rewrite bigEndian_snoc, <- app_assoc. reflexivity.
Qed.

Lemma numberToBytes_toInt32 (num : Z) (length : nat) :
  numberToBytes num length = bigEndian length (toInt32 num).
Proof.
  unfold numberToBytes. rewrite <- numberToBytes_loop_toInt32.
  rewrite <- (app_nil_r (replicate length x00)).
  rewrite (numberToBytes_loop_filled length (toInt32 num) _ []).
  - apply app_nil_r.
  - apply length_replicate.
  - apply toInt32_idem.
Qed.

(** A number that fits in [length] bytes, themselves no more than the 31 bits
    of a positive 32-bit value, is encoded exactly. *)
Lemma be_value_numberToBytes (num : Z) (length : nat) :
  0 <= num < 2 ^ 31 -> num < 256 ^ Z.of_nat length ->
  be_value (numberToBytes num length) = num.
Proof.
  intros Hr Hfit.
  rewrite numberToBytes_toInt32, toInt32_small, be_value_bigEndian by lia.
  apply Z.mod_small. lia.
Qed.

(** ** The encoder *)

Lemma encode_layout (a : InteroperableAddress.t) :
  encodeInteroperableAddress a
  = layout (InteroperableAddress.version a) (InteroperableAddress.chainType a)
           (InteroperableAddress.chainReference a) (InteroperableAddress.address a).
Proof.
  unfold encodeInteroperableAddress, concatBytes, nobleConcatBytes, layout, layout_body.
  rewrite !numberToBytes_1, !numberToBytes_2. simpl.
  rewrite app_nil_r. reflexivity.
Qed.

Lemma length_layout (version chainType : Z) (chainReference address : list byte) :
  length (layout version chainType chainReference address)
  = (6 + length chainReference + length address)%nat.
Proof.
  unfold layout, layout_body, u16be. simpl. rewrite !length_app. simpl. lia.
Qed.

(** C1.  For every address whose chain reference and address hold at most 255
    bytes, the encoding is the version as two big-endian bytes, the chain type
    as two big-endian bytes, the length of the chain reference as one byte, the
    chain reference, the length of the address as one byte, and the address;
    its length is 6 plus the two field lengths. *)
Theorem encodeInteroperableAddress_layout (a : InteroperableAddress.t) :
  valid_lengths a ->
  let version := InteroperableAddress.version a in
  let chainType := InteroperableAddress.chainType a in
  let chainReference := InteroperableAddress.chainReference a in
  let address := InteroperableAddress.address a in
  encodeInteroperableAddress a
  = u16be version ++ u16be chainType
      ++ [u8 (Z.of_nat (length chainReference))] ++ chainReference
      ++ [u8 (Z.of_nat (length address))] ++ address
  /\ (0 <= version < 65536 -> be_value (u16be version) = version)
  /\ (0 <= chainType < 65536 -> be_value (u16be chainType) = chainType)
  /\ byte_val (u8 (Z.of_nat (length chainReference))) = Z.of_nat (length chainReference)
  /\ byte_val (u8 (Z.of_nat (length address))) = Z.of_nat (length address)
  /\ length (encodeInteroperableAddress a)
     = (6 + length chainReference + length address)%nat.
Proof.
  intros [Hr Ha]. cbv zeta. rewrite encode_layout.
  split; [reflexivity|].
  split; [intros H; rewrite be_value_u16be; apply Z.mod_small; lia|].
  split; [intros H; rewrite be_value_u16be; apply Z.mod_small; lia|].
  split; [rewrite byte_val_u8; apply Z.mod_small; lia|].
  split; [rewrite byte_val_u8; apply Z.mod_small; lia|].
  apply length_layout.
Qed.

Lemma encodeInteroperableAddress_layout_witness :
  let a := InteroperableAddress.mk 1 0 [x01] [xd8; xda; x6b] in
  valid_lengths a
  /\ encodeInteroperableAddress a
     = [x00; x01; x00; x00; x01; x01; x03; xd8; xda; x6b].
Proof.
  cbv zeta. split.
  - unfold valid_lengths. simpl. lia.
  - apply (encodeInteroperableAddress_layout
             (InteroperableAddress.mk 1 0 [x01] [xd8; xda; x6b])).
    unfold valid_lengths. simpl. lia.
Defined.

(** C9.  The encoder is a total function of its argument: it checks nothing,
    and on every address, valid or not, it returns the layout in which each
    length byte holds the length modulo 256.  An address field of 256 bytes is
    written after a length byte 0x00. *)
Theorem encodeInteroperableAddress_total (a : InteroperableAddress.t) :
  let chainReference := InteroperableAddress.chainReference a in
  let address := InteroperableAddress.address a in
  (exists lenRef lenAddr : byte,
      encodeInteroperableAddress a
      = u16be (InteroperableAddress.version a)
          ++ u16be (InteroperableAddress.chainType a)
          ++ [lenRef] ++ chainReference ++ [lenAddr] ++ address
      /\ byte_val lenRef = Z.of_nat (length chainReference) mod 256
      /\ byte_val lenAddr = Z.of_nat (length address) mod 256)
  /\ (length address = 256%nat ->
      encodeInteroperableAddress a
      = u16be (InteroperableAddress.version a)
          ++ u16be (InteroperableAddress.chainType a)
          ++ [u8 (Z.of_nat (length chainReference))] ++ chainReference
          ++ [x00] ++ address)
  /\ encodeInteroperableAddress
       (InteroperableAddress.mk VERSION_1 ChainType.EIP155 [] (replicate 256 xab))
     = [x00; x01; x00; x00; x00; x00] ++ replicate 256 xab.
Proof.
  cbv zeta. rewrite !encode_layout. unfold layout, layout_body.
  split; [|split].
  - eexists _, _.
    split; [reflexivity|]. rewrite !byte_val_u8. split; reflexivity.
  - intros ->. reflexivity.
  - reflexivity.
Qed.

(** ** Hexadecimal text *)

Lemma toUpperCase_hexes (b : byte) (rest : string) :
  toUpperCase (hexes b ++ rest)
  = String (upperHexDigit (Byte.to_nat b / 16))
      (String (upperHexDigit (Byte.to_nat b mod 16)) (toUpperCase rest)).
Proof.
  destruct b; reflexivity.
Qed.

(** [nobleToHex(bytes).toUpperCase()] is the upper-case rendering. *)
Lemma toUpperCase_nobleToHex (bytes : list byte) :
  toUpperCase (nobleToHex bytes) = upperHex bytes.
Proof.
  induction bytes as [|b rest IH]; [reflexivity|].
  cbn [nobleToHex upperHex]. rewrite toUpperCase_hexes, IH. reflexivity.
Qed.

Lemma bytesToHex_false (bytes : list byte) :
  bytesToHex bytes (Some false) = upperHex bytes.
Proof.
  unfold bytesToHex. cbn. apply toUpperCase_nobleToHex.
Qed.

Lemma bytesToHex_true (bytes : list byte) :
  bytesToHex bytes (Some true) = ("0x" ++ upperHex bytes)%string.
Proof.
  unfold bytesToHex. cbn [default]. rewrite toUpperCase_nobleToHex. reflexivity.
Qed.

Lemma length_upperHex (bytes : list byte) :
  String.length (upperHex bytes) = (2 * length bytes)%nat.
Proof.
  induction bytes as [|b rest IH]; [reflexivity|].
  cbn [upperHex String.length length]. rewrite IH. lia.
Qed.

(** A character whose upper case is the digit of [n] has the value [n]: the
    library reads a digit in either case. *)
Lemma asciiToBase16_upperChar (n : nat) (c : ascii) :
  (n < 16)%nat ->
  upperChar c = upperHexDigit n ->
  asciiToBase16 (N_of_ascii c) = Some (N.of_nat n).
Proof.
  intros Hn.
  do 16 (destruct n as [|n];
         [clear Hn; destruct c as [[] [] [] [] [] [] [] []]; vm_compute; congruence|]).
  lia.
Qed.

Lemma upperChar_not_x (n : nat) (c : ascii) :
  (n < 16)%nat ->
  upperChar c = upperHexDigit n ->
  c <> "x"%char /\ c <> "X"%char.
Proof.
  intros Hn H.
  split; intros ->;
    do 16 (destruct n as [|n]; [vm_compute in H; congruence|]); lia.
Qed.

Lemma byte_nibbles (b : byte) :
  (Byte.to_nat b / 16 < 16)%nat /\ (Byte.to_nat b mod 16 < 16)%nat
  /\ u8 (Z.of_N (N.of_nat (Byte.to_nat b / 16) * 16 + N.of_nat (Byte.to_nat b mod 16))) = b.
Proof.
  destruct b; vm_compute; repeat split; lia.
Qed.

Lemma toUpperCase_upperHex (bytes : list byte) :
  toUpperCase (upperHex bytes) = upperHex bytes.
Proof.
  induction bytes as [|b rest IH]; [reflexivity|].
  cbn [upperHex toUpperCase]. rewrite IH. destruct b; reflexivity.
Qed.

(** The library decodes every spelling, in either case, of an upper-case
    rendering back to the bytes rendered. *)
Lemma nobleFromHex_loop_upper (bytes : list byte) (s : string) :
  toUpperCase s = upperHex bytes ->
  nobleFromHex_loop s = Ok bytes /\ Nat.odd (String.length s) = false.
Proof.
  revert s. induction bytes as [|b rest IH]; intros s H.
  - destruct s; [split; reflexivity | discriminate].
  - destruct s as [|c1 [|c2 s']]; try discriminate.
    cbn [toUpperCase upperHex] in H. injection H as H1 H2 H3.
    destruct (IH s' H3) as [Hloop Hodd].
    destruct (byte_nibbles b) as (Hhi & Hlo & Hb).
    split.
    + cbn [nobleFromHex_loop].
      rewrite (asciiToBase16_upperChar _ _ Hhi H1).
      rewrite (asciiToBase16_upperChar _ _ Hlo H2).
      rewrite Hloop. cbn [mbind result_bind]. rewrite Hb. reflexivity.
    + cbn [String.length]. rewrite Nat.odd_succ_succ. exact Hodd.
Qed.

Lemma nobleFromHex_upper (bytes : list byte) (s : string) :
  toUpperCase s = upperHex bytes -> nobleFromHex s = Ok bytes.
Proof.
  intros H. destruct (nobleFromHex_loop_upper bytes s H) as [Hloop Hodd].
  unfold nobleFromHex. rewrite Hodd. exact Hloop.
Qed.

(** A spelling of a rendering does not begin with [0x] or [0X]: its second
    character is a digit. *)
Lemma upperHex_no_prefix (bytes : list byte) (s : string) :
  toUpperCase s = upperHex bytes ->
  String.prefix "0x" s = false /\ String.prefix "0X" s = false.
Proof.
  intros H. destruct s as [|c1 [|c2 s']].
  - split; reflexivity.
  - split; cbn [String.prefix]; destruct (ascii_dec _ c1); reflexivity.
  - destruct bytes as [|b rest]; [discriminate|].
    cbn [toUpperCase upperHex] in H. injection H as _ H2 _.
    destruct (byte_nibbles b) as (_ & Hlo & _).
    destruct (upperChar_not_x _ _ Hlo H2) as [Hx HX].
    split; cbn [String.prefix];
      destruct (ascii_dec _ c1); try reflexivity;
      destruct (ascii_dec _ c2); try reflexivity; congruence.
Qed.

Lemma hexToBytes_upper (bytes : list byte) (s : string) :
  toUpperCase s = upperHex bytes -> hexToBytes s = Ok bytes.
Proof.
  intros H. destruct (upperHex_no_prefix bytes s H) as [Hx HX].
  unfold hexToBytes. rewrite Hx, HX. cbn [orb]. apply nobleFromHex_upper, H.
Qed.

(** [hexToBytes] drops one leading [0x] or [0X]. *)
Lemma hexToBytes_0x (s : string) :
  hexToBytes ("0x" ++ s) = nobleFromHex s /\ hexToBytes ("0X" ++ s) = nobleFromHex s.
Proof.
  assert (Hnil : forall t : string, String.prefix "" t = true)
    by (intros []; reflexivity).
  unfold hexToBytes. cbn [append String.prefix slice]. rewrite !Hnil.
  split;
    repeat match goal with
           | |- context [ascii_dec ?a ?b] =>
               destruct (ascii_dec a b); try congruence
           end;
    reflexivity.
Qed.

(** C7.  Decoding the unprefixed rendering of a byte sequence gives the
    sequence back.  [bytesToHex] renders with upper-case digits; it puts [0x]
    in front when its second argument is [true] or omitted and nothing when it
    is [false].  [hexToBytes] reads the digits in either case, with or without
    a leading [0x] or [0X]. *)
Theorem hexToBytes_bytesToHex (bytes : list byte) :
  hexToBytes (bytesToHex bytes (Some false)) = Ok bytes
  /\ bytesToHex bytes (Some false) = upperHex bytes
  /\ bytesToHex bytes (Some true) = ("0x" ++ upperHex bytes)%string
  /\ bytesToHex bytes None = bytesToHex bytes (Some true)
  /\ String.prefix "0x" (bytesToHex bytes (Some false)) = false
  /\ (forall s : string,
         toUpperCase s = upperHex bytes ->
         hexToBytes s = Ok bytes
         /\ hexToBytes ("0x" ++ s) = Ok bytes
         /\ hexToBytes ("0X" ++ s) = Ok bytes).
Proof.
  rewrite bytesToHex_false, bytesToHex_true.
  pose proof (toUpperCase_upperHex bytes) as Hup.
  split; [apply hexToBytes_upper, Hup|].
  split; [reflexivity|].
  split; [reflexivity|].
  split; [unfold bytesToHex; cbn [default]; rewrite toUpperCase_nobleToHex; reflexivity|].
  split; [apply (upperHex_no_prefix bytes), Hup|].
  intros s H. destruct (hexToBytes_0x s) as [-> ->].
  rewrite (nobleFromHex_upper bytes s H), (hexToBytes_upper bytes s H).
  repeat split.
Qed.

(** ** The builder *)

(** Once the address field is decoded, the builder is its four validations. *)
Lemma createInteroperableAddress_normalized
    (params : CreateInteroperableAddressParams.t) (address : list byte) :
  normalizeAddress (CreateInteroperableAddressParams.address params) = Ok address ->
  let chainType := CreateInteroperableAddressParams.chainType params in
  let chainReference :=
    normalizeChainReference (CreateInteroperableAddressParams.chainReference params) in
  createInteroperableAddress params
  = if (length chainReference =? 0)%nat && (length address =? 0)%nat
    then Throw (Error (message BothEmpty))
    else if (255 <? length chainReference)%nat
    then Throw (Error (message ChainReferenceTooLong))
    else if (255 <? length address)%nat
    then Throw (Error (message AddressTooLong))
    else if (chainType <? 0) || (65535 <? chainType)
    then Throw (Error (message ChainTypeOutOfRange))
    else Ok (built chainType chainReference address).
Proof.
  intros H. cbv zeta. unfold createInteroperableAddress.
  destruct params as [ct ref addr]. cbn in H |- *.
  destruct addr as [[hex|bytes]|]; cbn in H |- *.
  - rewrite H. reflexivity.
  - injection H as <-. reflexivity.
  - injection H as <-. reflexivity.
Qed.

(** The builder throws whenever the address field does not decode. *)
Lemma createInteroperableAddress_decode_error
    (params : CreateInteroperableAddressParams.t) (e : exn) :
  normalizeAddress (CreateInteroperableAddressParams.address params) = Throw e ->
  createInteroperableAddress params = Throw e.
Proof.
  intros H. unfold createInteroperableAddress.
  destruct params as [ct ref [[hex|bytes]|]]; cbn in H |- *; try discriminate.
  rewrite H. reflexivity.
Qed.

Lemma length_zero_iff_nil (l : list byte) : (length l =? 0)%nat = true <-> l = [].
Proof.
  destruct l; cbn; split; congruence.
Qed.

(** The outcome of the builder, validation by validation, in their order. *)
Lemma createInteroperableAddress_cases
    (params : CreateInteroperableAddressParams.t) (address : list byte) :
  normalizeAddress (CreateInteroperableAddressParams.address params) = Ok address ->
  let chainType := CreateInteroperableAddressParams.chainType params in
  let chainReference :=
    normalizeChainReference (CreateInteroperableAddressParams.chainReference params) in
  let rejected c := violates c chainType chainReference address in
  let thrown c := createInteroperableAddress params = Throw (Error (message c)) in
  (rejected BothEmpty /\ thrown BothEmpty)
  \/ (~ rejected BothEmpty /\ rejected ChainReferenceTooLong
      /\ thrown ChainReferenceTooLong)
  \/ (~ rejected BothEmpty /\ ~ rejected ChainReferenceTooLong
      /\ rejected AddressTooLong /\ thrown AddressTooLong)
  \/ (~ rejected BothEmpty /\ ~ rejected ChainReferenceTooLong
      /\ ~ rejected AddressTooLong /\ rejected ChainTypeOutOfRange
      /\ thrown ChainTypeOutOfRange)
  \/ (~ rejected BothEmpty /\ ~ rejected ChainReferenceTooLong
      /\ ~ rejected AddressTooLong /\ ~ rejected ChainTypeOutOfRange
      /\ createInteroperableAddress params
         = Ok (built chainType chainReference address)).
Proof.
  intros H. cbv zeta.
  rewrite (createInteroperableAddress_normalized params address H).
  set (ct := CreateInteroperableAddressParams.chainType params).
  set (ref := normalizeChainReference _).
  unfold violates.
  assert (He : (length ref =? 0)%nat && (length address =? 0)%nat = true
               <-> ref = [] /\ address = []).
  { rewrite andb_true_iff, !length_zero_iff_nil. reflexivity. }
  destruct ((length ref =? 0)%nat && (length address =? 0)%nat).
  { left. split; [apply He|]; reflexivity. }
  assert (N1 : ~ (ref = [] /\ address = [])) by (intros X; apply He in X; discriminate).
  right. destruct (Nat.ltb_spec 255 (length ref)).
  { left. repeat split; [exact N1 | lia]. }
  right. destruct (Nat.ltb_spec 255 (length address)).
  { left. repeat split; [exact N1 | lia | lia]. }
  right. destruct (Z.ltb_spec ct 0); cbn [orb].
  { left. repeat split; [exact N1 | lia | lia | lia]. }
  destruct (Z.ltb_spec 65535 ct).
  { left. repeat split; [exact N1 | lia | lia | lia]. }
  right. repeat split; [exact N1 | lia | lia | lia].
Qed.

Lemma fails_throw {A : Type} (r : result A) (e : exn) : r = Throw e -> fails r.
Proof. intros ->. exists e. reflexivity. Qed.

Lemma succeeds_ok {A : Type} (r : result A) (a : A) : r = Ok a -> succeeds r.
Proof. intros ->. exists a. reflexivity. Qed.

Lemma not_fails_ok {A : Type} (r : result A) (a : A) : r = Ok a -> ~ fails r.
Proof. intros -> [e H]. discriminate. Qed.

Lemma createInteroperableAddress_fails_iff
    (params : CreateInteroperableAddressParams.t) (address : list byte) :
  normalizeAddress (CreateInteroperableAddressParams.address params) = Ok address ->
  let chainType := CreateInteroperableAddressParams.chainType params in
  let chainReference :=
    normalizeChainReference (CreateInteroperableAddressParams.chainReference params) in
  fails (createInteroperableAddress params)
  <-> (chainReference = [] /\ address = [])
      \/ (length chainReference > 255)%nat
      \/ (length address > 255)%nat
      \/ (chainType < 0 \/ chainType > 65535).
Proof.
  intros H. cbv zeta.
  destruct (createInteroperableAddress_cases params address H)
    as [(R & T)|[(N1 & R & T)|[(N1 & N2 & R & T)|[(N1 & N2 & N3 & R & T)
                                                 |(N1 & N2 & N3 & N4 & T)]]]];
    cbn [violates] in *.
  1-4: split; [intros _; tauto | intros _; exact (fails_throw _ _ T)].
  split; [intros F; exfalso; exact (not_fails_ok _ _ T F) | tauto].
Qed.

Lemma createInteroperableAddress_succeeds_iff
    (params : CreateInteroperableAddressParams.t) (address : list byte) :
  normalizeAddress (CreateInteroperableAddressParams.address params) = Ok address ->
  succeeds (createInteroperableAddress params)
  <-> ~ fails (createInteroperableAddress params).
Proof.
  intros H.
  destruct (createInteroperableAddress_cases params address H)
    as [(R & T)|[(N1 & R & T)|[(N1 & N2 & R & T)|[(N1 & N2 & N3 & R & T)
                                                 |(N1 & N2 & N3 & N4 & T)]]]].
  1-4: split; [intros [a Ha]; rewrite T in Ha; discriminate
              | intros F; exfalso; exact (F (fails_throw _ _ T))].
  split; [intros _; exact (not_fails_ok _ _ T) | intros _; exact (succeeds_ok _ _ T)].
Qed.

(** C3.  Once the fields are normalized, the builder fails exactly when both
    fields are empty, or the chain reference is longer than 255 bytes, or the
    address is longer than 255 bytes, or the chain type is below 0 or above
    65535; the validations run in this order and the first one that rejects
    decides the error.  A field of 255 bytes passes and one of 256 bytes
    fails; the chain types -1 and 65536 fail, 0 and 65535 pass. *)
Theorem createInteroperableAddress_validation :
  (forall (params : CreateInteroperableAddressParams.t) (address : list byte),
      normalizeAddress (CreateInteroperableAddressParams.address params) = Ok address ->
      let chainType := CreateInteroperableAddressParams.chainType params in
      let chainReference :=
        normalizeChainReference (CreateInteroperableAddressParams.chainReference params) in
      let bothEmpty := chainReference = [] /\ address = [] in
      let referenceTooLong := (length chainReference > 255)%nat in
      let addressTooLong := (length address > 255)%nat in
      let typeOutOfRange := chainType < 0 \/ chainType > 65535 in
      let thrown c := createInteroperableAddress params = Throw (Error (message c)) in
      (fails (createInteroperableAddress params)
       <-> bothEmpty \/ referenceTooLong \/ addressTooLong \/ typeOutOfRange)
      /\ (bothEmpty -> thrown BothEmpty)
      /\ (~ bothEmpty -> referenceTooLong -> thrown ChainReferenceTooLong)
      /\ (~ bothEmpty -> ~ referenceTooLong -> addressTooLong -> thrown AddressTooLong)
      /\ (~ bothEmpty -> ~ referenceTooLong -> ~ addressTooLong -> typeOutOfRange ->
          thrown ChainTypeOutOfRange)
      /\ (~ bothEmpty -> ~ referenceTooLong -> ~ addressTooLong -> ~ typeOutOfRange ->
          createInteroperableAddress params
          = Ok (built chainType chainReference address)))
  /\ (forall (chainType : Z) (bytes : list byte),
         0 <= chainType <= 65535 ->
         let asReference :=
           CreateInteroperableAddressParams.mk chainType (Some (RefBytes bytes)) None in
         let asAddress :=
           CreateInteroperableAddressParams.mk chainType None (Some (AddrBytes bytes)) in
         (length bytes = 255%nat ->
          succeeds (createInteroperableAddress asReference)
          /\ succeeds (createInteroperableAddress asAddress))
         /\ (length bytes = 256%nat ->
             fails (createInteroperableAddress asReference)
             /\ fails (createInteroperableAddress asAddress)))
  /\ (forall (reference address : list byte),
         (0 < length reference + length address)%nat ->
         (length reference <= 255)%nat -> (length address <= 255)%nat ->
         let withType chainType :=
           CreateInteroperableAddressParams.mk
             chainType (Some (RefBytes reference)) (Some (AddrBytes address)) in
         fails (createInteroperableAddress (withType (-1)))
         /\ fails (createInteroperableAddress (withType 65536))
         /\ succeeds (createInteroperableAddress (withType 0))
         /\ succeeds (createInteroperableAddress (withType 65535))).
Proof.
  split; [|split].
  - intros params address H. cbv zeta.
    split; [exact (createInteroperableAddress_fails_iff params address H)|].
    destruct (createInteroperableAddress_cases params address H)
      as [(R & T)|[(N1 & R & T)|[(N1 & N2 & R & T)|[(N1 & N2 & N3 & R & T)
                                                   |(N1 & N2 & N3 & N4 & T)]]]];
      cbn [violates] in *; repeat split; intros; solve [exact T | tauto | lia].
  - intros chainType bytes Hct. cbv zeta.
    set (asReference :=
           CreateInteroperableAddressParams.mk chainType (Some (RefBytes bytes)) None).
    set (asAddress :=
           CreateInteroperableAddressParams.mk chainType None (Some (AddrBytes bytes))).
    assert (Fr : fails (createInteroperableAddress asReference)
                 <-> (bytes = [] /\ @nil byte = [])
                     \/ (length bytes > 255)%nat \/ (length (@nil byte) > 255)%nat
                     \/ (chainType < 0 \/ chainType > 65535))
      by exact (createInteroperableAddress_fails_iff asReference [] eq_refl).
    assert (Fa : fails (createInteroperableAddress asAddress)
                 <-> (@nil byte = [] /\ bytes = [])
                     \/ (length (@nil byte) > 255)%nat \/ (length bytes > 255)%nat
                     \/ (chainType < 0 \/ chainType > 65535))
      by exact (createInteroperableAddress_fails_iff asAddress bytes eq_refl).
    pose proof (createInteroperableAddress_succeeds_iff asReference [] eq_refl) as Sr.
    pose proof (createInteroperableAddress_succeeds_iff asAddress bytes eq_refl) as Sa.
    cbn [length] in Fr, Fa.
    split; intros Hlen.
    + assert (bytes <> []) by (intros ->; discriminate).
      split; [apply Sr; rewrite Fr | apply Sa; rewrite Fa];
        intuition (congruence || lia).
    + split; [apply Fr | apply Fa]; lia.
  - intros reference address Hne Hr Ha. cbv zeta.
    set (withType := fun chainType : Z =>
           CreateInteroperableAddressParams.mk
             chainType (Some (RefBytes reference)) (Some (AddrBytes address))).
    assert (Hn : ~ (reference = [] /\ address = []))
      by (intros [-> ->]; cbn in Hne; lia).
    assert (F : forall ct : Z,
               fails (createInteroperableAddress (withType ct))
               <-> (reference = [] /\ address = [])
                   \/ (length reference > 255)%nat \/ (length address > 255)%nat
                   \/ (ct < 0 \/ ct > 65535))
      by exact (fun ct =>
                  createInteroperableAddress_fails_iff (withType ct) address eq_refl).
    pose proof (fun ct => createInteroperableAddress_succeeds_iff (withType ct) address eq_refl)
      as S.
    repeat split; [apply F | apply F | apply S; rewrite F | apply S; rewrite F];
      intuition (congruence || lia).
Qed.

Lemma createInteroperableAddress_validation_witness :
  let params :=
    CreateInteroperableAddressParams.mk
      ChainType.EIP155 (Some (RefBytes (replicate 256 x00))) (Some (AddrString "0xd8dA")) in
  normalizeAddress (CreateInteroperableAddressParams.address params) = Ok [xd8; xda]
  /\ createInteroperableAddress params = Throw (Error (message ChainReferenceTooLong)).
Proof.
  cbv zeta. split; [reflexivity|].
  destruct createInteroperableAddress_validation as [H _].
  refine (proj1 (proj2 (proj2
            (H (CreateInteroperableAddressParams.mk
                  ChainType.EIP155 (Some (RefBytes (replicate 256 x00)))
                  (Some (AddrString "0xd8dA")))
               [xd8; xda] eq_refl))) _ _).
  - intros [E _]. discriminate E.
  - cbn. lia.
Defined.

(** C4.  When the builder returns an address, its version is 1, its chain
    type is the one given, its chain reference is the normalized chain
    reference (empty when absent, [numberToMinBytes n] for a number [n], the
    bytes themselves otherwise) and its address is the normalized address
    (empty when absent, [hexToBytes hex] for a string, the bytes themselves
    otherwise).  The builder is a function: its result depends on its argument
    only. *)
Theorem createInteroperableAddress_returns
    (params : CreateInteroperableAddressParams.t) (a : InteroperableAddress.t) :
  createInteroperableAddress params = Ok a ->
  InteroperableAddress.version a = 1
  /\ InteroperableAddress.chainType a = CreateInteroperableAddressParams.chainType params
  /\ match CreateInteroperableAddressParams.chainReference params with
     | None => InteroperableAddress.chainReference a = []
     | Some (RefNumber n) => InteroperableAddress.chainReference a = numberToMinBytes n
     | Some (RefBytes bytes) => InteroperableAddress.chainReference a = bytes
     end
  /\ match CreateInteroperableAddressParams.address params with
     | None => InteroperableAddress.address a = []
     | Some (AddrString hex) => hexToBytes hex = Ok (InteroperableAddress.address a)
     | Some (AddrBytes bytes) => InteroperableAddress.address a = bytes
     end.
Proof.
  intros H.
  destruct (normalizeAddress (CreateInteroperableAddressParams.address params))
    as [address|e] eqn:Hn.
  2: { rewrite (createInteroperableAddress_decode_error params e Hn) in H.
       discriminate. }
  destruct (createInteroperableAddress_cases params address Hn)
    as [(R & T)|[(N1 & R & T)|[(N1 & N2 & R & T)|[(N1 & N2 & N3 & R & T)
                                                 |(N1 & N2 & N3 & N4 & T)]]]];
    rewrite T in H; try discriminate.
  injection H as <-. unfold built. cbn.
  destruct params as [ct ref addr]. cbn in *.
  repeat split.
  - destruct ref as [[n|bytes]|]; reflexivity.
  - destruct addr as [[hex|bytes]|]; cbn in Hn; congruence.
Qed.

Lemma createInteroperableAddress_returns_witness :
  let params :=
    CreateInteroperableAddressParams.mk
      ChainType.EIP155 (Some (RefNumber 42161)) (Some (AddrString "0xd8dA6B")) in
  let a := InteroperableAddress.mk 1 0 [xa4; xb1] [xd8; xda; x6b] in
  createInteroperableAddress params = Ok a
  /\ InteroperableAddress.version a = 1.
Proof.
  cbv zeta. split; [reflexivity|].
  apply (createInteroperableAddress_returns
           (CreateInteroperableAddressParams.mk
              ChainType.EIP155 (Some (RefNumber 42161)) (Some (AddrString "0xd8dA6B")))
           (InteroperableAddress.mk 1 0 [xa4; xb1] [xd8; xda; x6b])).
  reflexivity.
Defined.

(** C6, as the code has it.  Each failure of a validation throws a plain
    [Error] whose message is the text of [src/encoder.ts]:
    "At least one of chainReference or address must be provided",
    "Chain reference length cannot exceed 255 bytes",
    "Address length cannot exceed 255 bytes" and
    "Chain type must be a 2-byte value (0-65535)". *)
Theorem createInteroperableAddress_messages
    (params : CreateInteroperableAddressParams.t) (address : list byte) (e : exn) :
  normalizeAddress (CreateInteroperableAddressParams.address params) = Ok address ->
  createInteroperableAddress params = Throw e ->
  let chainType := CreateInteroperableAddressParams.chainType params in
  let chainReference :=
    normalizeChainReference (CreateInteroperableAddressParams.chainReference params) in
  (chainReference = [] /\ address = []
   /\ e = Error "At least one of chainReference or address must be provided")
  \/ ((length chainReference > 255)%nat
      /\ e = Error "Chain reference length cannot exceed 255 bytes")
  \/ ((length address > 255)%nat
      /\ e = Error "Address length cannot exceed 255 bytes")
  \/ ((chainType < 0 \/ chainType > 65535)
      /\ e = Error "Chain type must be a 2-byte value (0-65535)").
Proof.
  intros Hn H. cbv zeta.
  destruct (createInteroperableAddress_cases params address Hn)
    as [(R & T)|[(N1 & R & T)|[(N1 & N2 & R & T)|[(N1 & N2 & N3 & R & T)
                                                 |(N1 & N2 & N3 & N4 & T)]]]];
    rewrite T in H; try discriminate; injection H as <-; cbn [violates message] in *.
  - left. tauto.
  - right; left. tauto.
  - right; right; left. tauto.
  - right; right; right. tauto.
Qed.

Lemma createInteroperableAddress_messages_witness :
  let params :=
    CreateInteroperableAddressParams.mk 65536 None (Some (AddrBytes [xd8])) in
  createInteroperableAddress params
  = Throw (Error "Chain type must be a 2-byte value (0-65535)")
  /\ ((@nil byte = [] /\ [xd8] = @nil byte
       /\ Error "Chain type must be a 2-byte value (0-65535)"
          = Error "At least one of chainReference or address must be provided")
      \/ ((length (@nil byte) > 255)%nat
          /\ Error "Chain type must be a 2-byte value (0-65535)"
             = Error "Chain reference length cannot exceed 255 bytes")
      \/ ((length [xd8] > 255)%nat
          /\ Error "Chain type must be a 2-byte value (0-65535)"
             = Error "Address length cannot exceed 255 bytes")
      \/ ((65536 < 0 \/ 65536 > 65535)
          /\ Error "Chain type must be a 2-byte value (0-65535)"
             = Error "Chain type must be a 2-byte value (0-65535)")).
Proof.
  cbv zeta. split; [reflexivity|].
  exact (createInteroperableAddress_messages
           (CreateInteroperableAddressParams.mk 65536 None (Some (AddrBytes [xd8])))
           [xd8] _ eq_refl eq_refl).
Defined.

(** C6, as the specification words it, fails: on each of these four inputs the
    builder throws the message of the code, which is not the canonical message
    of the specification. *)
Lemma createInteroperableAddress_canonical_messages_counterexample :
  let mk := CreateInteroperableAddressParams.mk in
  let thrown params (text : string) :=
    createInteroperableAddress params = Throw (Error text) in
  (thrown (mk 0 None None)
     "At least one of chainReference or address must be provided"%string
   /\ ~ thrown (mk 0 None None)
         "at least one of chainReference or address must be provided"%string)
  /\ (thrown (mk 0 (Some (RefBytes (replicate 256 x00))) None)
        "Chain reference length cannot exceed 255 bytes"%string
      /\ ~ thrown (mk 0 (Some (RefBytes (replicate 256 x00))) None)
            "chain reference length exceeds 255 bytes"%string)
  /\ (thrown (mk 0 None (Some (AddrBytes (replicate 256 x00))))
        "Address length cannot exceed 255 bytes"%string
      /\ ~ thrown (mk 0 None (Some (AddrBytes (replicate 256 x00))))
            "address length exceeds 255 bytes"%string)
  /\ (thrown (mk 65536 None (Some (AddrBytes [xd8])))
        "Chain type must be a 2-byte value (0-65535)"%string
      /\ ~ thrown (mk 65536 None (Some (AddrBytes [xd8])))
            "chain type must fit in 2 bytes"%string).
Proof.
  cbv zeta. repeat split; vm_compute; try reflexivity; discriminate.
Qed.

(** C10.  With the number 0 as chain reference and no address the builder
    throws the error of its first validation, whatever the chain type: the
    number 0 is normalized to the empty sequence, not to one zero byte (which,
    given as bytes, is a chain reference the builder accepts). *)
Theorem createInteroperableAddress_zero_reference (chainType : Z) :
  createInteroperableAddress
    (CreateInteroperableAddressParams.mk chainType (Some (RefNumber 0)) None)
  = Throw (Error "At least one of chainReference or address must be provided")
  /\ normalizeChainReference (Some (RefNumber 0)) = []
  /\ numberToMinBytes 0 <> [x00]
  /\ (0 <= chainType <= 65535 ->
      createInteroperableAddress
        (CreateInteroperableAddressParams.mk chainType (Some (RefBytes [x00])) None)
      = Ok (built chainType [x00] [])).
Proof.
  split; [reflexivity|]. split; [reflexivity|]. split; [discriminate|].
  intros H. unfold createInteroperableAddress. cbn.
  destruct (Z.ltb_spec chainType 0); [lia|].
  destruct (Z.ltb_spec 65535 chainType); [lia|]. reflexivity.
Qed.

(** ** Checksum and names *)

Section Checksum.

Variable keccak_256 : list byte -> list byte.

Lemma calculateChecksum_eq (a : InteroperableAddress.t) :
  calculateChecksum keccak_256 a
  = upperHex (take 4 (keccak_256
                        (layout_body (InteroperableAddress.chainType a)
                                     (InteroperableAddress.chainReference a)
                                     (InteroperableAddress.address a)))).
Proof.
  unfold calculateChecksum, keccak256, concatBytes, nobleConcatBytes.
  rewrite bytesToHex_false, !numberToBytes_1, numberToBytes_2.
  unfold layout_body. cbn [concat app]. rewrite app_nil_r. reflexivity.
Qed.

(** C2.  The checksum of an address with fields of at most 255 bytes is the
    upper-case hexadecimal rendering, without prefix, of the first four
    bytes of the digest of: the chain type as two big-endian bytes, the
    length byte of the chain reference, the chain reference, the length
    byte of the address, the address; that is the encoding without its two
    version bytes.  With a digest of 32 bytes it has 8 characters.  Two
    addresses that differ in their version only have one checksum. *)
Theorem calculateChecksum_layout (a : InteroperableAddress.t) :
  (forall data : list byte, length (keccak_256 data) = 32%nat) ->
  valid_lengths a ->
  let chainType := InteroperableAddress.chainType a in
  let chainReference := InteroperableAddress.chainReference a in
  let address := InteroperableAddress.address a in
  let lengthByte (field : list byte) := u8 (Z.of_nat (length field)) in
  let input :=
    u16be chainType
      ++ [lengthByte chainReference] ++ chainReference
      ++ [lengthByte address] ++ address in
  calculateChecksum keccak_256 a = upperHex (take 4 (keccak_256 input))
  /\ input = drop 2 (encodeInteroperableAddress a)
  /\ (0 <= chainType < 65536 -> be_value (u16be chainType) = chainType)
  /\ byte_val (lengthByte chainReference) = Z.of_nat (length chainReference)
  /\ byte_val (lengthByte address) = Z.of_nat (length address)
  /\ String.length (calculateChecksum keccak_256 a) = 8%nat
  /\ String.prefix "0x" (calculateChecksum keccak_256 a) = false
  /\ (forall a' : InteroperableAddress.t,
         InteroperableAddress.chainType a' = chainType ->
         InteroperableAddress.chainReference a' = chainReference ->
         InteroperableAddress.address a' = address ->
         calculateChecksum keccak_256 a' = calculateChecksum keccak_256 a).
Proof.
  intros Hdigest [Hr Ha]. cbv zeta. rewrite !calculateChecksum_eq.
  split; [reflexivity|].
  split; [rewrite encode_layout; reflexivity|].
  split; [intros H; rewrite be_value_u16be; apply Z.mod_small; lia|].
  split; [rewrite byte_val_u8; apply Z.mod_small; lia|].
  split; [rewrite byte_val_u8; apply Z.mod_small; lia|].
  split; [rewrite length_upperHex, length_take, Hdigest; reflexivity|].
  split; [apply (upperHex_no_prefix _ _ (toUpperCase_upperHex _))|].
  intros a' Ht Hc Hd. rewrite calculateChecksum_eq, Ht, Hc, Hd. reflexivity.
Qed.

(** C8.  The formatted name of an address is the caller's address string,
    [@], the caller's chain string, [#] and the checksum of the address; the
    two strings are copied as they are.  With an empty address string the
    name begins with [@]. *)
Theorem formatInteroperableName_toInteroperableName
    (a : InteroperableAddress.t) (chainString addressString : string) :
  formatInteroperableName (toInteroperableName keccak_256 a chainString addressString)
  = (addressString ++ "@" ++ chainString ++ "#" ++ calculateChecksum keccak_256 a)%string
  /\ formatInteroperableName (toInteroperableName keccak_256 a chainString "")
     = String "@" (chainString ++ "#" ++ calculateChecksum keccak_256 a)%string
  /\ InteroperableName.address (toInteroperableName keccak_256 a chainString addressString)
     = addressString
  /\ InteroperableName.chain (toInteroperableName keccak_256 a chainString addressString)
     = chainString.
Proof.
  repeat split.
Qed.

End Checksum.

(** ** The library's hash *)

Lemma length_keccakRound (state : list Z) (roundConstant : Z) :
  length (Sha3.keccakRound state roundConstant) = 25%nat.
Proof.
  unfold Sha3.keccakRound, Sha3.chi.
  destruct (map _ Sha3.positions) as [|lane0 lanes] eqn:E;
    apply (f_equal (@length Z)) in E; rewrite length_map in E;
    [discriminate E | symmetry; exact E].
Qed.

Lemma length_keccakF (state : list Z) : length (Sha3.keccakF state) = 25%nat.
Proof.
  unfold Sha3.keccakF, Sha3.roundConstants. cbn [fold_left].
  apply length_keccakRound.
Qed.

Lemma length_absorb (blocks : list (list byte)) (state : list Z) :
  length state = 25%nat -> length (fold_left Sha3.absorb blocks state) = 25%nat.
Proof.
  revert state. induction blocks as [|block blocks IH]; intros state H; [exact H|].
  cbn [fold_left]. apply IH. apply length_keccakF.
Qed.

Lemma length_bytesOfLanes (state : list Z) :
  length (flat_map Sha3.bytesOfLane state) = (8 * length state)%nat.
Proof.
  induction state as [|l state IH]; [reflexivity|].
  cbn [flat_map]. rewrite length_app, IH.
  unfold Sha3.bytesOfLane. rewrite length_map, length_seq. cbn [length]. lia.
Qed.

(** The digest has 32 bytes. *)
Lemma length_keccak_256 (data : list byte) : length (Sha3.keccak_256 data) = 32%nat.
Proof.
  unfold Sha3.keccak_256.
  rewrite length_take, length_bytesOfLanes, length_absorb by reflexivity.
  reflexivity.
Qed.

Lemma calculateChecksum_layout_witness :
  let a :=
    InteroperableAddress.mk 1 0 [x01]
      [xd8; xda; x6b; xf2; x69; x64; xaf; x9d; x7e; xed;
       x9e; x03; xe5; x34; x15; xd3; x7a; xa9; x60; x45] in
  (forall data : list byte, length (Sha3.keccak_256 data) = 32%nat)
  /\ valid_lengths a
  /\ calculateChecksum Sha3.keccak_256 a
     = upperHex (take 4 (Sha3.keccak_256 (drop 2 (encodeInteroperableAddress a))))
  /\ calculateChecksum Sha3.keccak_256 a = "4CA88C9C"%string.
Proof.
  cbv zeta.
  set (a := InteroperableAddress.mk 1 0 [x01]
              [xd8; xda; x6b; xf2; x69; x64; xaf; x9d; x7e; xed;
               x9e; x03; xe5; x34; x15; xd3; x7a; xa9; x60; x45]).
  assert (Hvalid : valid_lengths a) by (unfold valid_lengths; cbn; lia).
  split; [exact length_keccak_256|]. split; [exact Hvalid|].
  split; [|vm_compute; reflexivity].
  exact (proj1 (calculateChecksum_layout Sha3.keccak_256 a length_keccak_256 Hvalid)).
Defined.

(** ** The examples of the test suite *)

Example ethereum_mainnet :
  scenario ChainType.EIP155 (Some (RefNumber 1)) (Some (AddrString vitalik))
           "eip155:1" vitalik
  = Ok ("0x00010000010114D8DA6BF26964AF9D7EED9E03E53415D37AA96045"%string,
        "0xd8dA6BF26964aF9D7eEd9e03E53415D37aA96045@eip155:1#4CA88C9C"%string).
Proof. vm_compute. reflexivity. Qed.

Example evm_without_chain_id :
  scenario ChainType.EIP155 None (Some (AddrString vitalik)) "eip155" vitalik
  = Ok ("0x000100000014D8DA6BF26964AF9D7EED9E03E53415D37AA96045"%string,
        "0xd8dA6BF26964aF9D7eEd9e03E53415D37aA96045@eip155#B26DB7CB"%string).
Proof. vm_compute. reflexivity. Qed.

Example solana_mainnet :
  (genesis ← hexToBytes solanaGenesis;
   scenario ChainType.SOLANA (Some (RefBytes genesis)) (Some (AddrString solanaAccount))
            "solana:5eykt4UsFv8P8NJdTREpY1vzqKqZKvdpKuc147dw2N9d"
            "MJKqp326RZCHnAAbew9MDdui3iCKWco7fsK9sVuZTX2")
  = Ok ("0x000100022045296998A6F8E2A784DB5D9F95E18FC23F70441A1039446801089879B08C7EF02005333498D5AEA4AE009585C43F7B8C30DF8E70187D4A713D134F977FC8DFE0B5"%string,
        "MJKqp326RZCHnAAbew9MDdui3iCKWco7fsK9sVuZTX2@solana:5eykt4UsFv8P8NJdTREpY1vzqKqZKvdpKuc147dw2N9d#88835C11"%string).
Proof. vm_compute. reflexivity. Qed.

Example solana_network_only :
  (genesis ← hexToBytes solanaGenesis;
   scenario ChainType.SOLANA (Some (RefBytes genesis)) None
            "solana:5eykt4UsFv8P8NJdTREpY1vzqKqZKvdpKuc147dw2N9d" "")
  = Ok ("0x000100022045296998A6F8E2A784DB5D9F95E18FC23F70441A1039446801089879B08C7EF000"%string,
        "@solana:5eykt4UsFv8P8NJdTREpY1vzqKqZKvdpKuc147dw2N9d#2EB18670"%string).
Proof. vm_compute. reflexivity. Qed.

(** * Further properties of the code *)

(** ** [numberToBytes] *)

Lemma toInt32_mod_pow256 (num : Z) (k : nat) :
  (k <= 4)%nat -> toInt32 num mod 256 ^ Z.of_nat k = num mod 256 ^ Z.of_nat k.
Proof.
  intros Hk. destruct (toInt32_wrap num) as [j ->].
  assert (E : 2 ^ 32 = 256 ^ Z.of_nat (4 - k) * 256 ^ Z.of_nat k).
  { rewrite <- Z.pow_add_r by lia.
    replace (Z.of_nat (4 - k) + Z.of_nat k) with 4 by lia. reflexivity. }
  rewrite E, Z.mul_assoc. apply Z.mod_add.
  apply Z.pow_nonzero; lia.
Qed.

(** X1.  [numberToBytes(num, length)] returns [length] bytes.  For a width of
    at most four bytes, or a number from 0 to 2^31 - 1 at any width, they
    denote [num] modulo 256^length: the high-order part that does not fit is
    dropped, nothing is thrown. *)
Theorem numberToBytes_truncates (num : Z) (width : nat) :
  (width <= 4)%nat \/ 0 <= num < 2 ^ 31 ->
  length (numberToBytes num width) = width
  /\ be_value (numberToBytes num width) = num mod 256 ^ Z.of_nat width.
Proof.
  intros H. rewrite numberToBytes_toInt32, length_bigEndian, be_value_bigEndian.
  split; [reflexivity|].
  destruct H as [H|H].
  - apply toInt32_mod_pow256, H.
  - rewrite toInt32_small by lia. reflexivity.
Qed.

Lemma numberToBytes_truncates_witness :
  be_value (numberToBytes 65537 2) = 1 /\ be_value (numberToBytes 42161 8) = 42161.
Proof.
  split.
  - exact (proj2 (numberToBytes_truncates 65537 2 (or_introl (le_S _ _ (le_S _ _ (le_n 2)))))).
  - refine (proj2 (numberToBytes_truncates 42161 8 (or_intror _))). lia.
Defined.

(** X2.  [numberToBytes] sees the 32-bit value of its argument only: numbers
    that differ by a multiple of 2^32 have the same bytes at every width, so
    no width encodes a number beyond 32 bits. *)
Theorem numberToBytes_wraps (num j : Z) (width : nat) :
  numberToBytes (num + j * 2 ^ 32) width = numberToBytes num width.
Proof.
  rewrite !numberToBytes_toInt32. f_equal.
  unfold toInt32. f_equal.
  replace (num + j * 2 ^ 32 + 2 ^ 31) with (num + 2 ^ 31 + j * 2 ^ 32) by lia.
  apply Z.mod_add. lia.
Qed.

(** ** [hexToBytes] and [bytesToHex] *)

Lemma hexToBytes_cleanHex (hex : string) : hexToBytes hex = nobleFromHex (cleanHex hex).
Proof. reflexivity. Qed.

Lemma isHexDigit_asciiToBase16 (c : ascii) :
  isHexDigit c
  = match asciiToBase16 (N_of_ascii c) with Some _ => true | None => false end.
Proof.
  destruct c as [[] [] [] [] [] [] [] []]; reflexivity.
Qed.

(** The value of a digit is below 16, and its upper case is the digit of that
    value. *)
Lemma asciiToBase16_value (c : ascii) (n : N) :
  asciiToBase16 (N_of_ascii c) = Some n ->
  (n < 16)%N /\ upperChar c = upperHexDigit (N.to_nat n).
Proof.
  destruct c as [[] [] [] [] [] [] [] []]; vm_compute; intros H;
    try discriminate H; injection H as <-; split; reflexivity.
Qed.

Lemma even_length_pairs (s : string) :
  Nat.odd (String.length s) = false -> exists n : nat, String.length s = (2 * n)%nat.
Proof.
  intros H. rewrite <- Nat.negb_even in H. apply negb_false_iff in H.
  apply Nat.even_spec in H. destruct H as [n Hn]. exists n. exact Hn.
Qed.

Lemma nobleFromHex_loop_succeeds (n : nat) :
  forall s : string,
    String.length s = (2 * n)%nat ->
    succeeds (nobleFromHex_loop s) <-> allHexDigits s = true.
Proof.
  induction n as [|n IH]; intros s Hlen.
  - destruct s; [|discriminate]. split; [reflexivity | intros _; eexists; reflexivity].
  - destruct s as [|c1 [|c2 rest]]; cbn [String.length] in Hlen; try lia.
    assert (Hrest : String.length rest = (2 * n)%nat) by lia.
    specialize (IH rest Hrest).
    cbn [nobleFromHex_loop allHexDigits]. rewrite !isHexDigit_asciiToBase16.
    destruct (asciiToBase16 (N_of_ascii c1)) as [n1|];
      [|split; [intros [a Ha]; discriminate | discriminate]].
    destruct (asciiToBase16 (N_of_ascii c2)) as [n2|];
      [|split; [intros [a Ha]; discriminate | discriminate]].
    cbn [andb]. rewrite <- IH.
    destruct (nobleFromHex_loop rest) as [bytes|e]; cbn [mbind result_bind].
    + split; intros _; eexists; reflexivity.
    + split; intros [a Ha]; discriminate.
Qed.

(** X3.  [hexToBytes] returns exactly when what is left of its argument after
    one leading [0x] or [0X] has an even number of characters, all of them
    hexadecimal digits in either case; otherwise it throws. *)
Theorem hexToBytes_succeeds_iff (hex : string) :
  (succeeds (hexToBytes hex)
   <-> Nat.even (String.length (cleanHex hex)) = true
       /\ allHexDigits (cleanHex hex) = true)
  /\ (fails (hexToBytes hex) <-> ~ succeeds (hexToBytes hex)).
Proof.
  rewrite hexToBytes_cleanHex. unfold nobleFromHex.
  rewrite <- Nat.negb_even.
  split.
  - destruct (Nat.even (String.length (cleanHex hex))) eqn:Heven; cbn [negb].
    + apply Nat.even_spec in Heven. destruct Heven as [n Hn].
      rewrite (nobleFromHex_loop_succeeds n _ Hn). tauto.
    + split; [intros [a Ha]; discriminate | intros [H _]; discriminate].
  - destruct (if negb _ then _ else _) as [bytes|e].
    + split; [intros [e He]; discriminate | intros H; exfalso; apply H; eexists; reflexivity].
    + split; [intros _ [a Ha]; discriminate | intros _; eexists; reflexivity].
Qed.

Lemma u8_nibbles (n1 n2 : N) :
  (n1 < 16)%N -> (n2 < 16)%N ->
  let b := u8 (Z.of_N (n1 * 16 + n2)) in
  (Byte.to_nat b / 16)%nat = N.to_nat n1 /\ (Byte.to_nat b mod 16)%nat = N.to_nat n2.
Proof.
  intros H1 H2. cbv zeta.
  assert (E : Byte.to_nat (u8 (Z.of_N (n1 * 16 + n2)))
              = (N.to_nat n1 * 16 + N.to_nat n2)%nat).
  { rewrite Byte.to_nat_via_N.
    pose proof (byte_val_u8 (Z.of_N (n1 * 16 + n2))) as Hv.
    unfold byte_val in Hv. rewrite Z.mod_small in Hv by lia. lia. }
  rewrite E. split.
  - rewrite Nat.div_add_l, Nat.div_small by lia. lia.
  - rewrite Nat.add_comm, Nat.Div0.mod_add. apply Nat.mod_small. lia.
Qed.

Lemma nobleFromHex_loop_rendering (n : nat) :
  forall (s : string) (bytes : list byte),
    String.length s = (2 * n)%nat ->
    nobleFromHex_loop s = Ok bytes ->
    toUpperCase s = upperHex bytes /\ length bytes = n.
Proof.
  induction n as [|n IH]; intros s bytes Hlen H.
  - destruct s; [|discriminate]. injection H as <-. split; reflexivity.
  - destruct s as [|c1 [|c2 rest]]; cbn [String.length] in Hlen; try lia.
    assert (Hrest : String.length rest = (2 * n)%nat) by lia.
    cbn [nobleFromHex_loop] in H.
    destruct (asciiToBase16 (N_of_ascii c1)) as [n1|] eqn:E1; [|discriminate].
    destruct (asciiToBase16 (N_of_ascii c2)) as [n2|] eqn:E2; [|discriminate].
    destruct (nobleFromHex_loop rest) as [tail|e] eqn:Er;
      cbn [mbind result_bind] in H; [|discriminate].
    injection H as <-.
    destruct (IH rest tail Hrest Er) as [Hup Hlt].
    destruct (asciiToBase16_value c1 n1 E1) as [B1 U1].
    destruct (asciiToBase16_value c2 n2 E2) as [B2 U2].
    destruct (u8_nibbles n1 n2 B1 B2) as [Hhi Hlo].
    cbn [toUpperCase upperHex length]. rewrite Hhi, Hlo, U1, U2, Hup, Hlt.
    split; reflexivity.
Qed.

(** X4.  When [hexToBytes] returns, it returns one byte for every two
    characters after the prefix, and rendering these bytes again with
    [bytesToHex] gives the upper case of those characters (after [0x] when the
    prefix is asked for): decoding loses the case of the digits and the
    prefix, nothing else. *)
Theorem bytesToHex_hexToBytes (hex : string) (bytes : list byte) :
  hexToBytes hex = Ok bytes ->
  String.length (cleanHex hex) = (2 * length bytes)%nat
  /\ bytesToHex bytes (Some false) = toUpperCase (cleanHex hex)
  /\ bytesToHex bytes None = ("0x" ++ toUpperCase (cleanHex hex))%string.
Proof.
  rewrite hexToBytes_cleanHex. unfold nobleFromHex. intros H.
  destruct (Nat.odd (String.length (cleanHex hex))) eqn:Hodd; [discriminate|].
  destruct (even_length_pairs _ Hodd) as [n Hn].
  destruct (nobleFromHex_loop_rendering n _ _ Hn H) as [Hup Hlen].
  rewrite bytesToHex_false, Hup, Hn, Hlen.
  split; [reflexivity|]. split; [reflexivity|].
  unfold bytesToHex. cbn [default]. rewrite toUpperCase_nobleToHex. reflexivity.
Qed.

Lemma bytesToHex_hexToBytes_witness :
  hexToBytes "0Xd8dA6b" = Ok [xd8; xda; x6b]
  /\ bytesToHex [xd8; xda; x6b] None = "0xD8DA6B"%string.
Proof.
  split; [reflexivity|].
  exact (proj2 (proj2 (bytesToHex_hexToBytes "0Xd8dA6b" [xd8; xda; x6b] eq_refl))).
Defined.

(** ** The builder, again *)




(** X6.  An address string that is no well-formed hexadecimal text (an odd
    number of characters after the prefix, or a character that is no digit)
    makes the builder throw the error of [hexToBytes], whatever the chain type
    and the chain reference: the string is decoded before anything is
    validated. *)
Theorem createInteroperableAddress_malformed_hex
    (chainType : Z) (chainReference : option chainReferenceInput) (hex : string) :
  Nat.even (String.length (cleanHex hex)) && allHexDigits (cleanHex hex) = false ->
  exists e : exn,
    hexToBytes hex = Throw e
    /\ createInteroperableAddress
         (CreateInteroperableAddressParams.mk
            chainType chainReference (Some (AddrString hex)))
       = Throw e.
Proof.
  intros H.
  destruct (hexToBytes hex) as [bytes|e] eqn:E.
  - exfalso. rewrite hexToBytes_cleanHex in E. unfold nobleFromHex in E.
    rewrite <- Nat.negb_even in E.
    destruct (Nat.even (String.length (cleanHex hex))) eqn:Heven;
      cbn [negb] in E; [|discriminate].
    apply Nat.even_spec in Heven. destruct Heven as [n Hn].
    assert (S : succeeds (nobleFromHex_loop (cleanHex hex))) by (eexists; exact E).
    apply (nobleFromHex_loop_succeeds n _ Hn) in S. rewrite S in H. discriminate.
  - exists e. split; [reflexivity|].
    apply createInteroperableAddress_decode_error. exact E.
Qed.

Lemma createInteroperableAddress_malformed_hex_witness :
  exists e : exn,
    hexToBytes "0xd8dA6" = Throw e
    /\ createInteroperableAddress
         (CreateInteroperableAddressParams.mk
            70000 (Some (RefBytes (replicate 256 x00))) (Some (AddrString "0xd8dA6")))
       = Throw e.
Proof.
  exact (createInteroperableAddress_malformed_hex
           70000 (Some (RefBytes (replicate 256 x00))) "0xd8dA6" eq_refl).
Defined.

Lemma hexToBytes_bytesToHex_any (bytes : list byte) (prefix : option bool) :
  hexToBytes (bytesToHex bytes prefix) = Ok bytes.
Proof.
  pose proof (toUpperCase_upperHex bytes) as Hup.
  assert (Hp : hexToBytes ("0x" ++ upperHex bytes) = Ok bytes).
  { destruct (hexToBytes_0x (upperHex bytes)) as [-> _].
    apply nobleFromHex_upper, Hup. }
  destruct prefix as [[|]|].
  - rewrite bytesToHex_true. exact Hp.
  - rewrite bytesToHex_false. apply hexToBytes_upper, Hup.
  - replace (bytesToHex bytes None) with (bytesToHex bytes (Some true)) by reflexivity.
    rewrite bytesToHex_true. exact Hp.
Qed.

(** X7.  An address given as the string [bytesToHex] renders from some bytes,
    with or without the prefix, builds what the bytes themselves build: the
    same address or the same error. *)
Theorem createInteroperableAddress_rendered_address
    (chainType : Z) (chainReference : option chainReferenceInput)
    (bytes : list byte) (prefix : option bool) :
  createInteroperableAddress
    (CreateInteroperableAddressParams.mk
       chainType chainReference (Some (AddrString (bytesToHex bytes prefix))))
  = createInteroperableAddress
      (CreateInteroperableAddressParams.mk
         chainType chainReference (Some (AddrBytes bytes))).
Proof.
  unfold createInteroperableAddress.
  cbn [CreateInteroperableAddressParams.address
       CreateInteroperableAddressParams.chainType
       CreateInteroperableAddressParams.chainReference].
  rewrite hexToBytes_bytesToHex_any. reflexivity.
Qed.

(** ** The encoder, again *)

Lemma u16be_inj (v v' : Z) :
  0 <= v < 65536 -> 0 <= v' < 65536 -> u16be v = u16be v' -> v = v'.
Proof.
  intros H H' E. apply (f_equal be_value) in E.
  rewrite !be_value_u16be, !Z.mod_small in E by lia. exact E.
Qed.

Lemma u8_length_inj (l l' : list byte) :
  (length l <= 255)%nat -> (length l' <= 255)%nat ->
  u8 (Z.of_nat (length l)) = u8 (Z.of_nat (length l')) -> length l = length l'.
Proof.
  intros H H' E. apply (f_equal byte_val) in E.
  rewrite !byte_val_u8, !Z.mod_small in E by lia. lia.
Qed.

Lemma layout_inj (v c v' c' : Z) (r a r' a' : list byte) :
  0 <= v < 65536 -> 0 <= v' < 65536 -> 0 <= c < 65536 -> 0 <= c' < 65536 ->
  (length r <= 255)%nat -> (length r' <= 255)%nat ->
  (length a <= 255)%nat -> (length a' <= 255)%nat ->
  layout v c r a = layout v' c' r' a' ->
  v = v' /\ c = c' /\ r = r' /\ a = a'.
Proof.
  intros Hv Hv' Hc Hc' Hr Hr' Ha Ha' E.
  unfold layout in E. apply app_inj_1 in E; [|reflexivity].
  destruct E as [Ev E]. unfold layout_body in E.
  apply app_inj_1 in E; [|reflexivity]. destruct E as [Ec E].
  cbn [app] in E. injection E as Elr E.
  pose proof (u8_length_inj r r' Hr Hr' Elr) as Hlr.
  apply app_inj_1 in E; [|exact Hlr]. destruct E as [Er E].
  injection E as _ Eaddr.
  repeat split; try assumption; apply u16be_inj; assumption.
Qed.

Lemma encodeInteroperableAddress_inj (a a' : InteroperableAddress.t) :
  fits_wire a -> fits_wire a' ->
  encodeInteroperableAddress a = encodeInteroperableAddress a' -> a = a'.
Proof.
  intros (Hv & Hc & Hr & Ha) (Hv' & Hc' & Hr' & Ha') E.
  rewrite !encode_layout in E.
  destruct a as [v c r d], a' as [v' c' r' d']. cbn in *.
  destruct (layout_inj _ _ _ _ _ _ _ _ Hv Hv' Hc Hc' Hr Hr' Ha Ha' E)
    as (-> & -> & -> & ->).
  reflexivity.
Qed.


(** X8.  The binary form is unambiguous: two addresses whose version and
    chain type are 2-byte values and whose chain reference and address hold at
    most 255 bytes have the same encoding only if they are the same
    address. *)
Theorem encodeInteroperableAddress_injective (a a' : InteroperableAddress.t) :
  0 <= InteroperableAddress.version a < 65536 ->
  0 <= InteroperableAddress.chainType a < 65536 ->
  valid_lengths a ->
  0 <= InteroperableAddress.version a' < 65536 ->
  0 <= InteroperableAddress.chainType a' < 65536 ->
  valid_lengths a' ->
  encodeInteroperableAddress a = encodeInteroperableAddress a' ->
  a = a'.
Proof.
  intros Hv Hc Hl Hv' Hc' Hl' E.
  apply encodeInteroperableAddress_inj;
    [split; [|split]; assumption ..| exact E].
Qed.

Lemma encodeInteroperableAddress_injective_witness :
  let a := InteroperableAddress.mk 1 0 [x01] [xd8; xda] in
  encodeInteroperableAddress a = [x00; x01; x00; x00; x01; x01; x02; xd8; xda]
  /\ a = a.
Proof.
  cbv zeta. split; [reflexivity|].
  refine (encodeInteroperableAddress_injective
            (InteroperableAddress.mk 1 0 [x01] [xd8; xda])
            (InteroperableAddress.mk 1 0 [x01] [xd8; xda])
            _ _ _ _ _ _ eq_refl);
    first [cbn; lia | unfold valid_lengths; cbn; lia].
Defined.

(** X9.  Beyond the length bound the binary form is ambiguous: for every 255
    bytes [t], the address with no chain reference and the 256-byte address
    [t ++ [0]] is encoded like the address with the 256-byte chain reference
    [0 :: t] and no address.  The encoder alone does not keep the two
    apart; the builder refuses both. *)
Theorem encodeInteroperableAddress_ambiguous
    (version chainType : Z) (t : list byte) :
  length t = 255%nat ->
  let a := InteroperableAddress.mk version chainType [] (t ++ [x00]) in
  let a' := InteroperableAddress.mk version chainType (x00 :: t) [] in
  a <> a'
  /\ encodeInteroperableAddress a = encodeInteroperableAddress a'
  /\ fails (createInteroperableAddress
              (CreateInteroperableAddressParams.mk
                 chainType None (Some (AddrBytes (t ++ [x00])))))
  /\ fails (createInteroperableAddress
              (CreateInteroperableAddressParams.mk
                 chainType (Some (RefBytes (x00 :: t))) None)).
Proof.
  intros Hlen. cbv zeta.
  split; [discriminate|]. split.
  - rewrite !encode_layout. unfold layout, layout_body.
    cbn [InteroperableAddress.version InteroperableAddress.chainType
         InteroperableAddress.chainReference InteroperableAddress.address].
    rewrite length_app. cbn [length]. rewrite Hlen. cbn [Nat.add].
    change (u8 (Z.of_nat (255 + 1))) with x00.
    change (u8 (Z.of_nat 256)) with x00.
    change (u8 (Z.of_nat 0)) with x00.
    cbn [app]. rewrite ?app_nil_r. reflexivity.
  - split.
    + apply (createInteroperableAddress_fails_iff
               (CreateInteroperableAddressParams.mk
                  chainType None (Some (AddrBytes (t ++ [x00])))) (t ++ [x00]) eq_refl).
      right; right; left. rewrite length_app. cbn. lia.
    + apply (createInteroperableAddress_fails_iff
               (CreateInteroperableAddressParams.mk
                  chainType (Some (RefBytes (x00 :: t))) None) [] eq_refl).
      right; left. cbn. lia.
Qed.

Lemma encodeInteroperableAddress_ambiguous_witness :
  encodeInteroperableAddress
    (InteroperableAddress.mk 1 0 [] (replicate 255 xab ++ [x00]))
  = encodeInteroperableAddress
      (InteroperableAddress.mk 1 0 (x00 :: replicate 255 xab) []).
Proof.
  exact (proj1 (proj2 (encodeInteroperableAddress_ambiguous
                         1 0 (replicate 255 xab) eq_refl))).
Defined.

(** ** [createAndEncode] *)





(** ** Checksum and names, again *)

Section ChecksumOfEncoding.

Variable keccak_256 : list byte -> list byte.

(** X12.  [calculateChecksum] writes the layout out a second time instead of
    calling the encoder; the two agree on every address, valid or not: the
    checksum is the rendering of the first four digest bytes of the encoding
    without its first two bytes, so addresses with one encoding have one
    checksum. *)
Theorem calculateChecksum_encodeInteroperableAddress (a : InteroperableAddress.t) :
  calculateChecksum keccak_256 a
  = bytesToHex (take 4 (keccak256 keccak_256 (drop 2 (encodeInteroperableAddress a))))
               (Some false)
  /\ (forall a' : InteroperableAddress.t,
         encodeInteroperableAddress a' = encodeInteroperableAddress a ->
         calculateChecksum keccak_256 a' = calculateChecksum keccak_256 a).
Proof.
  assert (H : forall b : InteroperableAddress.t,
             calculateChecksum keccak_256 b
             = bytesToHex
                 (take 4 (keccak256 keccak_256 (drop 2 (encodeInteroperableAddress b))))
                 (Some false)).
  { intros b. rewrite calculateChecksum_eq, bytesToHex_false, encode_layout.
    reflexivity. }
  split; [apply H|]. intros a' E. rewrite (H a'), (H a), E. reflexivity.
Qed.

End ChecksumOfEncoding.

Lemma append_separator_inj (x : ascii) (s1 s2 t1 t2 : string) :
  occurs x s1 = false -> occurs x s2 = false ->
  (s1 ++ String x t1)%string = (s2 ++ String x t2)%string ->
  s1 = s2 /\ t1 = t2.
Proof.
  revert s2. induction s1 as [|c s1 IH]; intros [|d s2] H1 H2 E;
    cbn [append occurs] in *.
  - injection E as ->. split; reflexivity.
  - injection E as -> _. rewrite Ascii.eqb_refl in H2. discriminate.
  - injection E as -> _. rewrite Ascii.eqb_refl in H1. discriminate.
  - injection E as -> E.
    apply orb_false_iff in H1. apply orb_false_iff in H2.
    destruct (IH s2 (proj2 H1) (proj2 H2) E) as [-> ->]. split; reflexivity.
Qed.

(** X13.  A formatted name can be read back: when the address strings hold no
    [@] and the chain strings no [#], two names with the same formatted string
    are the same name (same address string, chain string and checksum). *)
Theorem formatInteroperableName_injective (name name' : InteroperableName.t) :
  occurs "@" (InteroperableName.address name) = false ->
  occurs "@" (InteroperableName.address name') = false ->
  occurs "#" (InteroperableName.chain name) = false ->
  occurs "#" (InteroperableName.chain name') = false ->
  formatInteroperableName name = formatInteroperableName name' ->
  name = name'.
Proof.
  destruct name as [a c k], name' as [a' c' k'].
  unfold formatInteroperableName. cbn. intros Ha Ha' Hc Hc' E.
  destruct (append_separator_inj _ _ _ _ _ Ha Ha' E) as [-> E'].
  destruct (append_separator_inj _ _ _ _ _ Hc Hc' E') as [-> ->].
  reflexivity.
Qed.

Lemma formatInteroperableName_injective_witness :
  let name := InteroperableName.mk "0xd8dA" "eip155:1" "4CA88C9C" in
  formatInteroperableName name = "0xd8dA@eip155:1#4CA88C9C"%string
  /\ name = name.
Proof.
  cbv zeta. split; [reflexivity|].
  exact (formatInteroperableName_injective
           (InteroperableName.mk "0xd8dA" "eip155:1" "4CA88C9C")
           (InteroperableName.mk "0xd8dA" "eip155:1" "4CA88C9C")
           eq_refl eq_refl eq_refl eq_refl eq_refl).
Defined.

Lemma append_assoc (s1 s2 s3 : string) :
  ((s1 ++ s2) ++ s3)%string = (s1 ++ s2 ++ s3)%string.
Proof.
  induction s1 as [|c s1 IH]; [reflexivity|]. cbn [append]. rewrite IH. reflexivity.
Qed.

(** X14.  [formatInteroperableName] does not escape its separators: a name
    whose address string holds an [@] is formatted like the name where the
    text after that [@] is moved to the front of the chain string. *)
Theorem formatInteroperableName_separator
    (address rest chain checksum : string) :
  formatInteroperableName
    (InteroperableName.mk (address ++ "@" ++ rest) chain checksum)
  = formatInteroperableName
      (InteroperableName.mk address (rest ++ "@" ++ chain) checksum)
  /\ InteroperableName.mk (address ++ "@" ++ rest) chain checksum
     <> InteroperableName.mk address (rest ++ "@" ++ chain) checksum.
Proof.
  split.
  - unfold formatInteroperableName. cbn.
    rewrite ?append_assoc. cbn [append]. rewrite ?append_assoc. reflexivity.
  - intros E. injection E as E _. apply (f_equal String.length) in E.
    revert E. induction address as [|c address IH]; cbn; [lia|].
    intros E. apply IH. lia.
Qed.


(** X16.  [bytesToHex] writes two characters for each byte, after the two of
    the prefix when it is asked for, and different byte sequences are never
    rendered alike, whatever the prefix arguments. *)
Theorem bytesToHex_injective (bytes bytes' : list byte) (prefix prefix' : option bool) :
  String.length (bytesToHex bytes prefix)
  = ((if default true prefix then 2 else 0) + 2 * length bytes)%nat
  /\ (bytesToHex bytes prefix = bytesToHex bytes' prefix' -> bytes = bytes').
Proof.
  split.
  - destruct prefix as [[|]|];
      [rewrite bytesToHex_true
      |rewrite bytesToHex_false
      |replace (bytesToHex bytes None) with (bytesToHex bytes (Some true))
         by reflexivity; rewrite bytesToHex_true];
      cbn; rewrite length_upperHex; lia.
  - intros E. apply (f_equal hexToBytes) in E.
    rewrite !hexToBytes_bytesToHex_any in E. injection E as E. exact E.
Qed.
